(** * Gomoku (five in a row): the board and rules engine of [gomoku.py]

    A shallow embedding of the class [GomokuGame] and the properties of
    its methods.  Python integers are [Z]; the board is a list of rows,
    each a list of one-character strings; list indexing follows Python
    (negative indices count from the end, anything else out of range
    raises [IndexError]); the dictionary [PLAYER_STONES] is a finite map
    whose failed lookup raises [KeyError].  A method is a computation
    that takes the object, and gives a value or an exception, the object
    afterwards and the lines it printed. *)

From Stdlib Require Import ZArith Lia Bool Ascii.
From stdpp Require Import base list strings gmap pretty.

Local Open Scope string_scope.
Local Open Scope Z_scope.

(** ** Module level constants *)

Definition BOARD_SIZE : Z := 15.
Definition EMPTY : string := ".".
Definition PLAYER_STONES : gmap string string :=
  <["black" := "X"]> (<["white" := "O"]> ∅).

(** [[EMPTY for _ in range(size)] for _ in range(size)]: [range] of a
    negative number is empty.  Every row is a list of its own. *)
Definition create_board (size : Z) : list (list string) :=
  replicate (Z.to_nat size) (replicate (Z.to_nat size) EMPTY).

(** The dataclass [MoveResult], with its default values. *)
Record MoveResult : Type := mkMoveResult {
  winner : option string;
  draw : bool
}.

Definition MoveResult_default : MoveResult := mkMoveResult None false.

(** ** The object and the computations on it *)

Record Game : Type := mkGame {
  size : Z;
  board : list (list string);
  current_player : string;
  moves_played : Z
}.

(** [OutOfFuel] is not a Python exception: it is what a loop bounded by
    fuel gives when the bound is reached first. *)
Inductive exn : Type := IndexError | KeyError | OutOfFuel.

Inductive result (A : Type) : Type :=
| Ok (a : A)
| Raise (e : exn).
Arguments Ok {A} a.
Arguments Raise {A} e.

(** value or exception, the object afterwards, the lines printed *)
Definition M (A : Type) : Type := Game -> result A * Game * list string.

Definition ret {A} (a : A) : M A := fun self => (Ok a, self, []).

Definition raise {A} (e : exn) : M A := fun self => (Raise e, self, []).

Definition bind {A B} (m : M A) (f : A -> M B) : M B :=
  fun self =>
    match m self with
    | (Ok a, self1, out1) =>
        match f a self1 with
        | (r, self2, out2) => (r, self2, (out1 ++ out2)%list)
        end
    | (Raise e, self1, out1) => (Raise e, self1, out1)
    end.

Declare Scope py_scope.
Delimit Scope py_scope with py.
Notation "x <- m ;; k" := (bind m (fun x => k))
  (at level 100, m at next level, right associativity) : py_scope.
Notation "m ;;; k" := (bind m (fun _ => k))
  (at level 100, right associativity) : py_scope.
Local Open Scope py_scope.

Definition get_self : M Game := fun self => (Ok self, self, []).

Definition set_board (b : list (list string)) : M unit :=
  fun self =>
    (Ok tt, mkGame (size self) b (current_player self) (moves_played self), []).

Definition set_current_player (p : string) : M unit :=
  fun self => (Ok tt, mkGame (size self) (board self) p (moves_played self), []).

Definition set_moves_played (n : Z) : M unit :=
  fun self => (Ok tt, mkGame (size self) (board self) (current_player self) n, []).

Definition print (line : string) : M unit := fun self => (Ok tt, self, [line]).

(** [l[i]] *)
Definition getitem {A} (l : list A) (i : Z) : M A :=
  let n := Z.of_nat (length l) in
  let j := if i <? 0 then n + i else i in
  if (0 <=? j) && (j <? n) then
    match l !! Z.to_nat j with
    | Some x => ret x
    | None => raise IndexError
    end
  else raise IndexError.

(** [l[i] = x], giving the list afterwards *)
Definition setitem {A} (l : list A) (i : Z) (x : A) : M (list A) :=
  let n := Z.of_nat (length l) in
  let j := if i <? 0 then n + i else i in
  if (0 <=? j) && (j <? n) then ret (<[Z.to_nat j := x]> l)
  else raise IndexError.

(** [d[k]] *)
Definition dict_getitem (d : gmap string string) (k : string) : M string :=
  match d !! k with
  | Some v => ret v
  | None => raise KeyError
  end.

(** [0 <= r < self.size and 0 <= c < self.size] *)
Definition on_board (self : Game) (r c : Z) : bool :=
  (0 <=? r) && (r <? size self) && (0 <=? c) && (c <? size self).

(** ** Loops and formatting *)

(** [for x in xs: acc = body x acc], for a loop that threads one local
    variable *)
Fixpoint for_each {A S} (xs : list A) (body : A -> S -> M S) (acc : S) : M S :=
  match xs with
  | [] => ret acc
  | x :: xs' => acc' <- body x acc ;; for_each xs' body acc'
  end.

(** [f"{i:2}"] and the like: the decimal digits of [i], right-aligned in
    a field of [width] characters padded with spaces *)
Fixpoint spaces (n : nat) : string :=
  match n with
  | O => ""
  | S n' => " " +:+ spaces n'
  end.

Definition format_width (width : nat) (i : Z) : string :=
  let digits := pretty i in
  spaces (width - String.length digits) +:+ digits.

(** ** What the loop of [run] needs *)

(** How one round of a [while True] loop ends: at a [break], or at a
    [continue] or the end of the body. *)
Inductive control : Type := Break | Continue.

(** How [run] ends when no method raises: it returns, or [input] finds
    the standard input at its end and raises [EOFError], which nothing
    catches. *)
Inductive run_result : Type := RunReturned | RunEOFError.

(** [input(prompt)] writes the prompt, with no newline after it; the
    line it reads is taken from the list of lines by the loop. *)
Definition input_prompt (prompt : string) : M unit :=
  fun self => (Ok tt, self, [prompt]).

(** [if x:] for [x : Optional[str]]: [None] and the empty string are
    false. *)
Definition truthy (x : option string) : bool :=
  match x with
  | Some s => negb (String.eqb s "")
  | None => false
  end.

Definition newline : string := String "010"%char "".

(** ** The class [GomokuGame] *)
Module GomokuGame.

Definition __init__ (size : Z) : Game :=
  mkGame size (create_board size) "black" 0.

Definition switch_player : M unit :=
  self <- get_self ;;
  set_current_player
    (if String.eqb (current_player self) "black" then "white" else "black").

Definition place_stone (row col : Z) : M bool :=
  self <- get_self ;;
  if negb (on_board self row col) then
    print "位置超出棋盘范围，请重新输入。" ;;;
    ret false
  else
    line <- getitem (board self) row ;;
    cell <- getitem line col ;;
    if negb (String.eqb cell EMPTY) then
      print "该位置已经有棋子，请重新输入。" ;;;
      ret false
    else
      stone <- dict_getitem PLAYER_STONES (current_player self) ;;
      (* self.board[row][col] = stone changes the row in place; the rows
         are lists of their own, so the board afterwards is the board
         with that one row replaced *)
      line <- getitem (board self) row ;;
      line' <- setitem line col stone ;;
      board' <- setitem (board self) row line' ;;
      set_board board' ;;;
      self <- get_self ;;
      set_moves_played (moves_played self + 1) ;;;
      ret true.

(** The [while True] loop of [count], one direction of one axis.  It
    is entered with [r, c] at the cell the previous round accepted. *)
Fixpoint count_while (fuel : nat) (stone : string)
    (direction_row direction_col direction : Z)
    (r c count_stones : Z) : M Z :=
  match fuel with
  | O => raise OutOfFuel
  | S fuel' =>
      let r := r + direction_row * direction in
      let c := c + direction_col * direction in
      self <- get_self ;;
      if on_board self r c then
        line <- getitem (board self) r ;;
        cell <- getitem line c ;;
        if String.eqb cell stone then
          count_while fuel' stone direction_row direction_col direction
            r c (count_stones + 1)
        else ret count_stones
      else ret count_stones
  end.

(** The local function [count] of [check_winner]; [stone], [row] and
    [col] are the variables it closes over. *)
Definition count (fuel : nat) (stone : string) (row col : Z)
    (direction_row direction_col : Z) : M Z :=
  for_each [1; -1]
    (fun direction count_stones =>
       count_while fuel stone direction_row direction_col direction
         row col count_stones)
    1.

Definition directions : list (Z * Z) := [(1, 0); (0, 1); (1, 1); (1, -1)].

(** [for dr, dc in directions: if count(dr, dc) >= 5: return ...],
    followed by [rest] when the loop ends without returning *)
Fixpoint check_axes (fuel : nat) (stone : string) (row col : Z)
    (ds : list (Z * Z)) (rest : M MoveResult) : M MoveResult :=
  match ds with
  | [] => rest
  | (dr, dc) :: ds' =>
      n <- count fuel stone row col dr dc ;;
      if 5 <=? n then
        self <- get_self ;;
        ret (mkMoveResult (Some (current_player self)) false)
      else check_axes fuel stone row col ds' rest
  end.

Definition check_winner (fuel : nat) (row col : Z) : M MoveResult :=
  self <- get_self ;;
  stone <- dict_getitem PLAYER_STONES (current_player self) ;;
  check_axes fuel stone row col directions
    (self <- get_self ;;
     if moves_played self =? size self * size self then
       ret (mkMoveResult None true)
     else ret MoveResult_default).

Definition print_board : M unit :=
  self <- get_self ;;
  let header :=
    "   " +:+ String.concat " " (map (format_width 2) (seqZ 1 (size self))) in
  print header ;;;
  for_each (zip (seqZ 1 (Z.of_nat (length (board self)))) (board self))
    (fun '(idx, row) _ =>
       let row_str := String.concat " " row in
       print (format_width 2 idx +:+ " " +:+ row_str))
    tt.

(** [run] reads lines with [input] and takes them apart with the
    methods [strip], [lower] and [split] of [str] and with [int], where
    [None] stands for [ValueError].  They are parameters here; the
    standard input is the list of the lines to come. *)
Section Run.

Variables (str_strip str_lower : string -> string).
Variable str_split : string -> list string.
Variable int : string -> option Z.

(** [user_input in {"quit", "q", "exit"}] *)
Definition quit_word (user_input : string) : bool :=
  String.eqb user_input "quit" || String.eqb user_input "q"
  || String.eqb user_input "exit".

(** The [try] block of [run]: the coordinates, or [None] when unpacking
    the words or [int] raises [ValueError]. *)
Definition read_move (user_input : string) : option (Z * Z) :=
  match str_split user_input with
  | [row_str; col_str] =>
      match int row_str with
      | Some r =>
          match int col_str with
          | Some c => Some (r - 1, c - 1)
          | None => None
          end
      | None => None
      end
  | _ => None
  end.

(** The body of the loop of [run] from the line that was read on. *)
Definition run_body (fuel : nat) (line : string) : M control :=
  let user_input := str_lower (str_strip line) in
  if quit_word user_input then
    print "游戏已退出。" ;;;
    ret Break
  else
    match read_move user_input with
    | None =>
        print "输入格式不正确，请输入两个数字，例如：8 8。" ;;;
        ret Continue
    | Some (row, col) =>
        placed <- place_stone row col ;;
        if negb placed then ret Continue
        else
          result <- check_winner fuel row col ;;
          print_board ;;;
          if truthy (winner result) then
            print ("恭喜！" +:+ default "" (winner result) +:+ " 获胜！") ;;;
            ret Break
          else if draw result then
            print "棋盘已满，平局结束！" ;;;
            ret Break
          else
            switch_player ;;;
            ret Continue
    end.

(** The loop of [run]: the start of the body up to [input], and then the
    rest of the body on the line read, if there is one. *)
Fixpoint run_loop (fuel : nat) (stdin : list string) : M run_result :=
  self <- get_self ;;
  stone <- dict_getitem PLAYER_STONES (current_player self) ;;
  input_prompt
    ("轮到" +:+ current_player self +:+ " (" +:+ stone +:+ ")，请输入坐标：") ;;;
  match stdin with
  | [] => ret RunEOFError
  | line :: stdin' =>
      c <- run_body fuel line ;;
      match c with
      | Break => ret RunReturned
      | Continue => run_loop fuel stdin'
      end
  end.

Definition run (fuel : nat) (stdin : list string) : M run_result :=
  print "欢迎来到简易五子棋！玩家黑棋 (X) 先手，白棋 (O) 后手。" ;;;
  print ("输入格式：行 列（均为 1-15 之间的数字），或输入 quit 退出。" +:+ newline) ;;;
  print_board ;;;
  run_loop fuel stdin.

End Run.

End GomokuGame.

Import GomokuGame.

(** [main]: a game of the default size, and [run] on it. *)
Definition main (str_strip str_lower : string -> string)
    (str_split : string -> list string) (int : string -> option Z)
    (fuel : nat) (stdin : list string)
    : result run_result * Game * list string :=
  let game := __init__ BOARD_SIZE in
  run str_strip str_lower str_split int fuel stdin game.

(** ** The text helpers on ASCII text

    What [strip], [lower], [split] and [int] do on a line of ASCII
    characters, to run [run] on lines that were typed. *)

(** [str.isspace] on an ASCII character *)
Definition ascii_space (a : ascii) : bool :=
  let n := nat_of_ascii a in
  ((9 <=? n)%nat && (n <=? 13)%nat) || ((28 <=? n)%nat && (n <=? 32)%nat).

Fixpoint ascii_lstrip (s : string) : string :=
  match s with
  | String a s' => if ascii_space a then ascii_lstrip s' else s
  | EmptyString => EmptyString
  end.

Definition ascii_strip (s : string) : string :=
  String.rev (ascii_lstrip (String.rev (ascii_lstrip s))).

Definition ascii_lower_char (a : ascii) : ascii :=
  let n := nat_of_ascii a in
  if (65 <=? n)%nat && (n <=? 90)%nat then ascii_of_nat (n + 32) else a.

Fixpoint ascii_lower (s : string) : string :=
  match s with
  | String a s' => String (ascii_lower_char a) (ascii_lower s')
  | EmptyString => EmptyString
  end.

(** [s.split()]: the words between runs of white space; [cur] is the
    word being read, backwards. *)
Fixpoint ascii_split_go (cur : option string) (s : string) : list string :=
  match s with
  | EmptyString => option_list (String.rev <$> cur)
  | String a s' =>
      if ascii_space a then
        (option_list (String.rev <$> cur) ++ ascii_split_go None s')%list
      else
        ascii_split_go (Some (String a (default EmptyString cur))) s'
  end.

Definition ascii_split (s : string) : list string := ascii_split_go None s.

(** The digits of a numeral, with single underscores between digits;
    [after_digit] tells whether the character before was a digit. *)
Fixpoint ascii_digits (acc : Z) (after_digit : bool) (s : string) : option Z :=
  match s with
  | EmptyString => if after_digit then Some acc else None
  | String a s' =>
      match Ascii.is_nat a with
      | Some d => ascii_digits (10 * acc + Z.of_nat d) true s'
      | None =>
          if after_digit && Ascii.eqb a "_" then ascii_digits acc false s'
          else None
      end
  end.

(** [int(s)] for a word [s]: an optional sign and a numeral *)
Definition ascii_int (s : string) : option Z :=
  match s with
  | String a s' =>
      if Ascii.eqb a "+" then ascii_digits 0 false s'
      else if Ascii.eqb a "-" then Z.opp <$> ascii_digits 0 false s'
      else ascii_digits 0 false s
  | EmptyString => None
  end.

(** [main] on lines of ASCII text. *)
Definition ascii_main (fuel : nat) (stdin : list string)
    : result run_result * Game * list string :=
  main ascii_strip ascii_lower ascii_split ascii_int fuel stdin.

(** * Vocabulary of the properties *)

(** ** Well-formed objects and the view of the board as cells *)

(** What [__init__] establishes and every method keeps: the player is
    one of the two keys of [PLAYER_STONES] and the board is a square of
    side [size]. *)
Record wf (g : Game) : Prop := mkWf {
  wf_player : current_player g = "black" \/ current_player g = "white";
  wf_rows : length (board g) = Z.to_nat (size g);
  wf_cols : Forall (fun line => length line = Z.to_nat (size g)) (board g)
}.

(** The cell at [(r, c)], [None] off the board. *)
Definition cell_at (g : Game) (r c : Z) : option string :=
  if on_board g r c then
    match board g !! Z.to_nat r with
    | Some line => line !! Z.to_nat c
    | None => None
    end
  else None.

(** The number of cells of the board that are not [EMPTY]. *)
Definition occupied_in (line : list string) : Z :=
  Z.of_nat (length (filter (fun cell => cell <> EMPTY) line)).

Definition occupied (b : list (list string)) : Z :=
  foldr (fun line n => occupied_in line + n) 0 b.

(** ** The words of the specification, for [check_winner] *)

(** [k] cells in a row hold [stone] from [(row, col)] (not counted)
    onwards in steps of [(a, b)], and the next one does not: it is off
    the board or holds something else. *)
Definition streak (g : Game) (stone : string) (row col a b k : Z) : Prop :=
  0 <= k /\
  (forall i, 1 <= i <= k -> cell_at g (row + i * a) (col + i * b) = Some stone) /\
  cell_at g (row + (k + 1) * a) (col + (k + 1) * b) <> Some stone.

(** The total of the axis [d] through [(row, col)]: the cell itself and
    the streaks on both sides. *)
Definition axis_total (g : Game) (stone : string) (row col : Z)
    (d : Z * Z) (n : Z) : Prop :=
  exists kp kn,
    streak g stone row col (fst d) (snd d) kp /\
    streak g stone row col (- fst d) (- snd d) kn /\
    n = 1 + kp + kn.

(** A step of one cell along a row, a column or a diagonal. *)
Definition unit_step (a b : Z) : Prop :=
  (-1 <= a <= 1) /\ (-1 <= b <= 1) /\ (a <> 0 \/ b <> 0).

(** How many more cells of the board lie ahead of [(r, c)] in steps of
    [(a, b)]: the bound on the rounds of the loop. *)
Definition ahead (g : Game) (a b r c : Z) : Z :=
  if a =? 1 then size g - 1 - r
  else if a =? -1 then r
  else if b =? 1 then size g - 1 - c
  else c.

(** [m] run on [g] leaves [g] as it is and prints nothing, whether it
    returns or raises. *)
Definition reads_only {A} (m : M A) (g : Game) : Prop :=
  exists r, m g = (r, g, []).

(** What [check_winner] returns when no axis qualifies. *)
Definition no_line_result (g : Game) : MoveResult :=
  if moves_played g =? size g * size g then mkMoveResult None true
  else MoveResult_default.

(** ** [place_stone] *)

(** The two lines [place_stone] prints when it refuses a move. *)
Definition off_board_message : string := "位置超出棋盘范围，请重新输入。".
Definition occupied_message : string := "该位置已经有棋子，请重新输入。".

(** The board after [board[row][col] = stone], for a cell on it. *)
Definition board_with (b : list (list string)) (row col : Z) (stone : string)
    : list (list string) :=
  match b !! Z.to_nat row with
  | Some line => <[Z.to_nat row := <[Z.to_nat col := stone]> line]> b
  | None => b
  end.

(** ** The states a game goes through *)

(** The three parts of what a computation gives on [g]. *)
Definition self_after {A} (m : M A) (g : Game) : Game := snd (fst (m g)).
Definition returned {A} (m : M A) (g : Game) : result A := fst (fst (m g)).
Definition printed {A} (m : M A) (g : Game) : list string := snd (m g).

(** The calls a client of the class can make on an object. *)
Inductive call : Type :=
| CallPlaceStone (row col : Z)
| CallCheckWinner (fuel : nat) (row col : Z)
| CallSwitchPlayer
| CallPrintBoard.

Definition after (c : call) (g : Game) : Game :=
  match c with
  | CallPlaceStone row col => self_after (place_stone row col) g
  | CallCheckWinner fuel row col => self_after (check_winner fuel row col) g
  | CallSwitchPlayer => self_after switch_player g
  | CallPrintBoard => self_after print_board g
  end.

Inductive reachable : Game -> Prop :=
| reachable_new (n : Z) : reachable (__init__ n)
| reachable_call (g : Game) (c : call) : reachable g -> reachable (after c g).

(** [moves_played] is the number of cells that are not [EMPTY]. *)
Definition counter_agrees (g : Game) : Prop :=
  moves_played g = occupied (board g).

(** [g] with the cell [(row, col)] holding [v]. *)
Definition set_cell (g : Game) (row col : Z) (v : string) : Game :=
  mkGame (size g) (board_with (board g) row col v)
    (current_player g) (moves_played g).

(** ** Games played out *)

(** The two players place stones in turn at the given cells, the way the
    loop of [run] does between two outcomes. *)
Definition play (moves : list (Z * Z)) : M unit :=
  for_each moves
    (fun '(row, col) _ => place_stone row col ;;; switch_player)
    tt.

(** Black has the four stones (4,0) to (4,3) in a row, between the edge
    of the board and a white stone, and the five stones (0,0) to (4,0)
    in a column; (4,0) was placed last. *)
Definition crossing_lines : Game :=
  self_after
    (play [(0, 0); (4, 4); (1, 0); (10, 0); (2, 0); (10, 2); (3, 0); (10, 4);
           (4, 1); (10, 6); (4, 2); (10, 8); (4, 3); (10, 10)] ;;;
     place_stone 4 0)
    (__init__ BOARD_SIZE).

(** Black has the four stones (4,0) to (4,3) in a row, between the edge
    of the board and a white stone, and nothing else in line with
    (4,0), which was placed last. *)
Definition blocked_four_game : Game :=
  self_after
    (play [(4, 1); (4, 4); (4, 2); (10, 0); (4, 3); (10, 2)] ;;;
     place_stone 4 0)
    (__init__ BOARD_SIZE).

(** Black has placed one stone, in the corner. *)
Definition corner_stone : Game :=
  self_after (place_stone 0 0) (__init__ BOARD_SIZE).

(** Black has (7,1) to (7,4) and is to move; (7,0) is empty. *)
Definition four_beside_empty : Game :=
  self_after
    (play [(7, 1); (0, 0); (7, 2); (0, 2); (7, 3); (0, 4); (7, 4); (0, 6)])
    (__init__ BOARD_SIZE).

(** The same with a white stone on (7,0). *)
Definition four_beside_white : Game :=
  self_after
    (play [(7, 1); (7, 0); (7, 2); (0, 2); (7, 3); (0, 4); (7, 4); (0, 6)])
    (__init__ BOARD_SIZE).

(** A board of side five that Black fills with the fifth stone of the
    top row. *)
Definition full_board_win : Game :=
  self_after
    (play [(0, 0); (1, 0); (0, 1); (1, 1); (0, 2); (1, 3); (0, 3); (1, 4);
           (1, 2); (2, 0); (2, 1); (2, 2); (2, 3); (2, 4); (3, 0); (3, 1);
           (3, 2); (3, 3); (3, 4); (4, 0); (4, 1); (4, 2); (4, 4); (4, 3)] ;;;
     place_stone 0 4)
    (__init__ 5).

(** The result when the player to move has a line. *)
Definition win (g : Game) : MoveResult :=
  mkMoveResult (Some (current_player g)) false.

(** Some axis through [(row, col)] totals five or more. *)
Definition line_of_five (g : Game) (stone : string) (row col : Z) : Prop :=
  exists d n, d ∈ directions /\ axis_total g stone row col d n /\ 5 <= n.

(** The other player, as [switch_player] computes it. *)
Definition opponent (p : string) : string :=
  if String.eqb p "black" then "white" else "black".

(** A cell that stops a line of the player to move: it is off the board
    or holds a stone of the other player. *)
Definition blocked (g : Game) (r c : Z) : Prop :=
  cell_at g r c = None \/
  exists s, PLAYER_STONES !! opponent (current_player g) = Some s /\
            cell_at g r c = Some s.

(** ** Vocabulary of the further properties *)

(** A cell holds one of the three marks. *)
Definition is_mark (cell : string) : Prop :=
  cell = EMPTY \/ cell = "X" \/ cell = "O".

Definition cells_marked (g : Game) : Prop :=
  Forall (Forall is_mark) (board g).

(** Five cells in a row on one of the four axes, [(row, col)] among
    them, all hold [stone]. *)
Definition five_in_row (g : Game) (stone : string) (row col : Z) : Prop :=
  exists d s,
    d ∈ directions /\ -4 <= s <= 0 /\
    forall i, s <= i <= s + 4 ->
      cell_at g (row + i * fst d) (col + i * snd d) = Some stone.

(** No cell of the board is [EMPTY]. *)
Definition full (g : Game) : Prop :=
  forall r c, cell_at g r c <> Some EMPTY.

(** The number of cells that hold [s]. *)
Definition stones_in (s : string) (line : list string) : Z :=
  Z.of_nat (length (filter (fun cell => cell = s) line)).

Definition stones (s : string) (b : list (list string)) : Z :=
  foldr (fun line n => stones_in s line + n) 0 b.

(** The object after a sequence of calls. *)
Fixpoint after_all (cs : list call) (g : Game) : Game :=
  match cs with
  | [] => g
  | c :: cs' => after_all cs' (after c g)
  end.

(** A board of side three that the two players have filled in turn,
    Black with the last stone, at (2,2). *)
Definition filled_board : Game :=
  after_all
    [CallPlaceStone 0 0; CallSwitchPlayer; CallPlaceStone 0 1; CallSwitchPlayer;
     CallPlaceStone 0 2; CallSwitchPlayer; CallPlaceStone 1 0; CallSwitchPlayer;
     CallPlaceStone 1 1; CallSwitchPlayer; CallPlaceStone 1 2; CallSwitchPlayer;
     CallPlaceStone 2 0; CallSwitchPlayer; CallPlaceStone 2 1; CallSwitchPlayer;
     CallPlaceStone 2 2]
    (__init__ 3).

(** The lines [print_board] prints. *)
Definition header_line (g : Game) : string :=
  "   " +:+ String.concat " " (map (format_width 2) (seqZ 1 (size g))).

Definition row_line (numbered : Z * list string) : string :=
  format_width 2 (fst numbered) +:+ " " +:+ String.concat " " (snd numbered).

Definition rendering (g : Game) : list string :=
  header_line g
  :: map row_line (zip (seqZ 1 (Z.of_nat (length (board g)))) (board g)).

(** The lines of [run]. *)
Definition goodbye_message : string := "游戏已退出。".
Definition format_message : string := "输入格式不正确，请输入两个数字，例如：8 8。".
Definition draw_message : string := "棋盘已满，平局结束！".
Definition win_message (p : string) : string := "恭喜！" +:+ p +:+ " 获胜！".
Definition prompt_line (p stone : string) : string :=
  "轮到" +:+ p +:+ " (" +:+ stone +:+ ")，请输入坐标：".
Definition welcome_lines : list string :=
  ["欢迎来到简易五子棋！玩家黑棋 (X) 先手，白棋 (O) 后手。";
   "输入格式：行 列（均为 1-15 之间的数字），或输入 quit 退出。" +:+ newline].

(** Black has as many stones as White when Black is to move, and one
    more when White is. *)
Definition balanced (g : Game) : Prop :=
  (current_player g = "black" /\
   stones "X" (board g) = stones "O" (board g)) \/
  (current_player g = "white" /\
   stones "X" (board g) = stones "O" (board g) + 1).

(** ** Tactics *)

(** Membership of a given axis in [directions]. *)
Ltac in_directions :=
  unfold directions;
  repeat first [apply list_elem_of_here | apply list_elem_of_further].

(** Well-formedness of a game that was played out, by evaluation. *)
Ltac wf_by_evaluation :=
  constructor;
  [ vm_compute; auto
  | vm_compute; reflexivity
  | vm_compute; repeat (constructor; [reflexivity|]); constructor ].

(** * Proofs *)

(** ** The methods on small games *)

Example print_board_new_game :
  print_board (__init__ 3)
  = (Ok tt, __init__ 3, ["    1  2  3"; " 1 . . ."; " 2 . . ."; " 3 . . ."]).
Proof. vm_compute. reflexivity. Qed.

Example place_stone_twice :
  returned (place_stone 1 1 ;;; place_stone 1 1) (__init__ 3) = Ok false /\
  board (self_after (place_stone 1 1 ;;; place_stone 1 1) (__init__ 3))
  = [["."; "."; "."]; ["."; "X"; "."]; ["."; "."; "."]].
Proof. vm_compute. split; reflexivity. Qed.

Example switch_player_twice :
  current_player (self_after switch_player (__init__ 3)) = "white" /\
  current_player (self_after (switch_player ;;; switch_player) (__init__ 3))
  = "black".
Proof. vm_compute. split; reflexivity. Qed.

(** Black's fifth stone in a row, and on a diagonal. *)
Example horizontal_win :
  returned
    (play [(7, 0); (0, 0); (7, 1); (0, 1); (7, 2); (0, 2); (7, 3); (0, 3)] ;;;
     place_stone 7 4 ;;; check_winner 16 7 4)
    (__init__ BOARD_SIZE)
  = Ok (mkMoveResult (Some "black") false).
Proof. vm_compute. reflexivity. Qed.

Example diagonal_win :
  returned
    (play [(0, 0); (0, 5); (1, 1); (0, 6); (2, 2); (0, 8); (3, 3); (0, 9)] ;;;
     place_stone 4 4 ;;; check_winner 16 4 4)
    (__init__ BOARD_SIZE)
  = Ok (mkMoveResult (Some "black") false).
Proof. vm_compute. reflexivity. Qed.

Example four_is_ongoing :
  returned
    (play [(7, 0); (0, 0); (7, 1); (0, 1); (7, 2); (0, 2)] ;;;
     place_stone 7 3 ;;; check_winner 16 7 3)
    (__init__ BOARD_SIZE)
  = Ok MoveResult_default.
Proof. vm_compute. reflexivity. Qed.

(** Negative indices count from the end, as in Python; [place_stone] and
    [check_winner] never get there. *)
Example getitem_negative :
  returned (getitem ["a"; "b"; "c"] (-1)) (__init__ 3) = Ok "c" /\
  returned (getitem ["a"; "b"; "c"] 3) (__init__ 3) = Raise IndexError /\
  returned (getitem ["a"; "b"; "c"] (-4)) (__init__ 3) = Raise IndexError.
Proof. vm_compute. repeat split; reflexivity. Qed.

(** ** Sequencing and reading the board *)

Lemma bind_ok {A B} (m : M A) (f : A -> M B) g g' a :
  m g = (Ok a, g', []) -> bind m f g = f a g'.
Proof.
  intros Hm. unfold bind. rewrite Hm.
  destruct (f a g') as [[r s] o]. reflexivity.
Qed.

Lemma bind_raise {A B} (m : M A) (f : A -> M B) g g' e out :
  m g = (Raise e, g', out) -> bind m f g = (Raise e, g', out).
Proof. intros Hm. unfold bind. rewrite Hm. reflexivity. Qed.

Lemma getitem_lookup {A} (l : list A) (i : Z) (x : A) g :
  0 <= i -> l !! Z.to_nat i = Some x -> getitem l i g = (Ok x, g, []).
Proof.
  intros Hi Hx. unfold getitem.
  apply lookup_lt_Some in Hx as Hlt.
  destruct (Z.ltb_spec i 0); [lia|].
  destruct (Z.leb_spec 0 i); [|lia].
  destruct (Z.ltb_spec i (Z.of_nat (length l))); [|lia].
  simpl. rewrite Hx. reflexivity.
Qed.

Lemma setitem_insert {A} (l : list A) (i : Z) (x : A) g :
  0 <= i < Z.of_nat (length l) ->
  setitem l i x g = (Ok (<[Z.to_nat i := x]> l), g, []).
Proof.
  intros Hi. unfold setitem.
  destruct (Z.ltb_spec i 0); [lia|].
  destruct (Z.leb_spec 0 i); [|lia].
  destruct (Z.ltb_spec i (Z.of_nat (length l))); [|lia].
  reflexivity.
Qed.

Lemma on_board_spec g r c :
  on_board g r c = true <-> 0 <= r < size g /\ 0 <= c < size g.
Proof.
  unfold on_board. rewrite !andb_true_iff.
  rewrite !Z.leb_le, !Z.ltb_lt. lia.
Qed.

Lemma on_board_false g r c :
  on_board g r c = false <-> ~ (0 <= r < size g /\ 0 <= c < size g).
Proof.
  rewrite <- on_board_spec. destruct (on_board g r c); split; congruence.
Qed.

Lemma cell_at_on_board g r c x :
  cell_at g r c = Some x -> on_board g r c = true.
Proof. unfold cell_at. destruct (on_board g r c); [done|discriminate]. Qed.

(** On a well-formed object a cell on the board can be read. *)
Lemma wf_cell g r c :
  wf g -> on_board g r c = true ->
  exists line cell,
    board g !! Z.to_nat r = Some line /\ line !! Z.to_nat c = Some cell /\
    length line = Z.to_nat (size g) /\ cell_at g r c = Some cell.
Proof.
  intros [_ Hrows Hcols] Hon. pose proof Hon as Hb.
  apply on_board_spec in Hb as [Hr Hc].
  destruct (lookup_lt_is_Some_2 (board g) (Z.to_nat r)) as [line Hline]; [lia|].
  assert (Hlen : length line = Z.to_nat (size g)).
  { rewrite Forall_lookup in Hcols. exact (Hcols _ _ Hline). }
  destruct (lookup_lt_is_Some_2 line (Z.to_nat c)) as [cell Hcell]; [lia|].
  exists line, cell. unfold cell_at. rewrite Hon, Hline. auto.
Qed.

(** [self.board[r][c]] on a well-formed object, for a cell on the board *)
Lemma read_cell {B} g r c (k : string -> M B) :
  wf g -> on_board g r c = true ->
  exists cell,
    cell_at g r c = Some cell /\
    bind (getitem (board g) r) (fun line => bind (getitem line c) k) g
    = k cell g.
Proof.
  intros Hwf Hon.
  destruct (wf_cell g r c Hwf Hon) as (line & cell & Hline & Hcell & _ & Hat).
  apply on_board_spec in Hon as [Hr Hc].
  exists cell. split; [exact Hat|].
  rewrite (bind_ok _ _ g g line) by (apply getitem_lookup; [lia|done]).
  rewrite (bind_ok _ _ g g cell) by (apply getitem_lookup; [lia|done]).
  reflexivity.
Qed.

(** ** The scan of one direction *)

Lemma ahead_nonneg g a b r c :
  on_board g r c = true -> 0 <= ahead g a b r c <= size g - 1.
Proof.
  intros Hon. apply on_board_spec in Hon. unfold ahead.
  repeat case_match; lia.
Qed.

Lemma ahead_step g a b r c :
  unit_step a b -> ahead g a b (r + a) (c + b) = ahead g a b r c - 1.
Proof.
  intros (Ha & Hb & Hab). unfold ahead.
  destruct (Z.eqb_spec a 1); [lia|].
  destruct (Z.eqb_spec a (-1)); [lia|].
  destruct (Z.eqb_spec b 1); lia.
Qed.

Lemma streak_unique g stone row col a b k1 k2 :
  streak g stone row col a b k1 -> streak g stone row col a b k2 -> k1 = k2.
Proof.
  intros (H1 & Hall1 & Hend1) (H2 & Hall2 & Hend2).
  destruct (Z.lt_trichotomy k1 k2) as [Hlt | [Heq | Hgt]]; [|exact Heq|].
  - exfalso. apply Hend1. apply Hall2. lia.
  - exfalso. apply Hend2. apply Hall1. lia.
Qed.

Lemma axis_total_unique g stone row col d n1 n2 :
  axis_total g stone row col d n1 -> axis_total g stone row col d n2 -> n1 = n2.
Proof.
  intros (kp1 & kn1 & Hp1 & Hn1 & ->) (kp2 & kn2 & Hp2 & Hn2 & ->).
  rewrite (streak_unique _ _ _ _ _ _ _ _ Hp1 Hp2).
  rewrite (streak_unique _ _ _ _ _ _ _ _ Hn1 Hn2). reflexivity.
Qed.

Lemma streak_zero g stone row col a b :
  cell_at g (row + a) (col + b) <> Some stone -> streak g stone row col a b 0.
Proof.
  intros Hne. repeat split; [lia | intros; lia |].
  replace (row + (0 + 1) * a) with (row + a) by lia.
  replace (col + (0 + 1) * b) with (col + b) by lia. exact Hne.
Qed.

Lemma streak_succ g stone row col a b k :
  cell_at g (row + a) (col + b) = Some stone ->
  streak g stone (row + a) (col + b) a b k ->
  streak g stone row col a b (k + 1).
Proof.
  intros Hfirst (Hk & Hall & Hend). repeat split; [lia | |].
  - intros i Hi. destruct (Z.eq_dec i 1) as [-> | Hne].
    + replace (row + 1 * a) with (row + a) by lia.
      replace (col + 1 * b) with (col + b) by lia. exact Hfirst.
    + replace (row + i * a) with (row + a + (i - 1) * a) by lia.
      replace (col + i * b) with (col + b + (i - 1) * b) by lia.
      apply Hall. lia.
  - replace (row + (k + 1 + 1) * a) with (row + a + (k + 1) * a) by lia.
    replace (col + (k + 1 + 1) * b) with (col + b + (k + 1) * b) by lia.
    exact Hend.
Qed.

(** With fuel for the cells ahead and the round that stops, the loop
    returns the count it was entered with plus the length of the streak,
    and touches nothing. *)
Lemma count_while_streak g stone dr dc d :
  wf g -> unit_step (dr * d) (dc * d) ->
  forall fuel r c n,
    (1 <= fuel)%nat ->
    (on_board g (r + dr * d) (c + dc * d) = true ->
     ahead g (dr * d) (dc * d) (r + dr * d) (c + dc * d) + 2 <= Z.of_nat fuel) ->
    exists k,
      streak g stone r c (dr * d) (dc * d) k /\
      count_while fuel stone dr dc d r c n g = (Ok (n + k), g, []).
Proof.
  intros Hwf Hstep. induction fuel as [|fuel IH]; intros r c n Hfuel Hahead.
  - lia.
  - cbn [count_while].
    rewrite (bind_ok _ _ g g g) by reflexivity.
    destruct (on_board g (r + dr * d) (c + dc * d)) eqn:Hon.
    + destruct (read_cell g (r + dr * d) (c + dc * d)
        (fun cell =>
           if String.eqb cell stone then
             count_while fuel stone dr dc d (r + dr * d) (c + dc * d) (n + 1)
           else ret n) Hwf Hon) as (cell & Hat & ->).
      specialize (Hahead eq_refl).
      pose proof (ahead_nonneg g (dr * d) (dc * d) _ _ Hon) as Hnn.
      destruct (String.eqb_spec cell stone) as [-> | Hne].
      * destruct (IH (r + dr * d) (c + dc * d) (n + 1)) as (k & Hrun & Heq).
        { lia. }
        { intros _. rewrite ahead_step by exact Hstep. lia. }
        exists (k + 1). split.
        -- apply streak_succ; assumption.
        -- rewrite Heq. do 3 f_equal. lia.
      * exists 0. split.
        -- apply streak_zero. rewrite Hat. congruence.
        -- unfold ret. do 3 f_equal. lia.
    + exists 0. split.
      * apply streak_zero. unfold cell_at. rewrite Hon. discriminate.
      * unfold ret. do 3 f_equal. lia.
Qed.

(** ** Computations that only read *)

Lemma reads_only_ret {A} (a : A) g : reads_only (ret a) g.
Proof. eexists. reflexivity. Qed.

Lemma reads_only_raise {A} e g : reads_only (@raise A e) g.
Proof. eexists. reflexivity. Qed.

Lemma reads_only_get_self g : reads_only get_self g.
Proof. eexists. reflexivity. Qed.

Lemma reads_only_getitem {A} (l : list A) i g : reads_only (getitem l i) g.
Proof.
  unfold getitem. repeat case_match;
    first [apply reads_only_ret | apply reads_only_raise].
Qed.

Lemma reads_only_dict_getitem d k g : reads_only (dict_getitem d k) g.
Proof.
  unfold dict_getitem. case_match;
    first [apply reads_only_ret | apply reads_only_raise].
Qed.

Lemma reads_only_bind {A B} (m : M A) (f : A -> M B) g :
  reads_only m g -> (forall a, reads_only (f a) g) -> reads_only (bind m f) g.
Proof.
  intros [r Hm] Hf. destruct r as [a | e].
  - unfold reads_only. rewrite (bind_ok _ _ _ _ _ Hm). apply Hf.
  - exists (Raise e). apply (bind_raise _ _ _ _ _ _ Hm).
Qed.

Create HintDb reads.
#[local] Hint Resolve reads_only_ret reads_only_raise reads_only_get_self
  reads_only_getitem reads_only_dict_getitem : reads.

Lemma reads_only_count_while fuel stone dr dc d g :
  forall r c n, reads_only (count_while fuel stone dr dc d r c n) g.
Proof.
  induction fuel as [|fuel IH]; intros r c n; cbn [count_while].
  - auto with reads.
  - apply reads_only_bind; [auto with reads|]. intros self.
    case_match; [|auto with reads].
    apply reads_only_bind; [auto with reads|]. intros line.
    apply reads_only_bind; [auto with reads|]. intros cell.
    case_match; auto with reads.
Qed.

Lemma reads_only_for_each {A S} (body : A -> S -> M S) g :
  (forall x acc, reads_only (body x acc) g) ->
  forall xs acc, reads_only (for_each xs body acc) g.
Proof.
  intros Hbody. induction xs as [|x xs IH]; intros acc; cbn [for_each].
  - auto with reads.
  - apply reads_only_bind; [apply Hbody | intros acc'; apply IH].
Qed.

Lemma reads_only_count fuel stone row col dr dc g :
  reads_only (count fuel stone row col dr dc) g.
Proof.
  unfold count. apply reads_only_for_each.
  intros d n. apply reads_only_count_while.
Qed.

Lemma reads_only_check_axes fuel stone row col rest g :
  reads_only rest g ->
  forall ds, reads_only (check_axes fuel stone row col ds rest) g.
Proof.
  intros Hrest. induction ds as [|[dr dc] ds IH]; cbn [check_axes].
  - exact Hrest.
  - apply reads_only_bind; [apply reads_only_count|]. intros n.
    case_match; [|exact IH].
    apply reads_only_bind; auto with reads.
Qed.

Lemma reads_only_check_winner fuel row col g :
  reads_only (check_winner fuel row col) g.
Proof.
  unfold check_winner.
  apply reads_only_bind; [auto with reads|]. intros self.
  apply reads_only_bind; [auto with reads|]. intros stone.
  apply reads_only_check_axes.
  apply reads_only_bind; [auto with reads|]. intros self'.
  case_match; auto with reads.
Qed.

(** ** The count of one axis and the loop over the axes *)

Lemma enough_fuel g a b r c fuel :
  (Z.to_nat (size g) < fuel)%nat ->
  on_board g r c = true -> ahead g a b r c + 2 <= Z.of_nat fuel.
Proof.
  intros Hfuel Hon. pose proof (ahead_nonneg g a b r c Hon). lia.
Qed.

Lemma count_total g stone row col dr dc fuel :
  wf g -> unit_step dr dc -> (Z.to_nat (size g) < fuel)%nat ->
  exists n,
    axis_total g stone row col (dr, dc) n /\
    count fuel stone row col dr dc g = (Ok n, g, []).
Proof.
  intros Hwf Hstep Hfuel. unfold count. cbn [for_each].
  destruct (count_while_streak g stone dr dc 1 Hwf) with (fuel := fuel)
    (r := row) (c := col) (n := 1) as (kp & Hp & Ep).
  { rewrite !Z.mul_1_r. exact Hstep. }
  { lia. }
  { apply enough_fuel. exact Hfuel. }
  destruct (count_while_streak g stone dr dc (-1) Hwf) with (fuel := fuel)
    (r := row) (c := col) (n := 1 + kp) as (kn & Hn & En).
  { destruct Hstep as (Ha & Hb & Hab). unfold unit_step. lia. }
  { lia. }
  { apply enough_fuel. exact Hfuel. }
  exists (1 + kp + kn). split.
  - exists kp, kn. cbn [fst snd].
    rewrite !Z.mul_1_r in Hp.
    replace (dr * -1) with (- dr) in Hn by lia.
    replace (dc * -1) with (- dc) in Hn by lia.
    auto.
  - rewrite (bind_ok _ _ _ _ _ Ep). rewrite (bind_ok _ _ _ _ _ En).
    reflexivity.
Qed.

Lemma directions_unit_steps :
  Forall (fun d : Z * Z => unit_step (fst d) (snd d)) directions.
Proof. unfold directions, unit_step. repeat constructor; cbn; lia. Qed.

(** The loop over the axes returns the win at the first axis whose total
    reaches five, and goes on to [rest] when there is none. *)
Lemma check_axes_total g stone row col fuel rest :
  wf g -> (Z.to_nat (size g) < fuel)%nat ->
  forall ds,
    Forall (fun d : Z * Z => unit_step (fst d) (snd d)) ds ->
    ((exists d n, d ∈ ds /\ axis_total g stone row col d n /\ 5 <= n) /\
     check_axes fuel stone row col ds rest g
     = (Ok (mkMoveResult (Some (current_player g)) false), g, []))
    \/
    ((forall d n, d ∈ ds -> axis_total g stone row col d n -> n < 5) /\
     check_axes fuel stone row col ds rest g = rest g).
Proof.
  intros Hwf Hfuel. induction ds as [|[dr dc] ds IH]; intros Hds.
  - right. split; [|reflexivity]. intros d n Hd. inversion Hd.
  - inversion Hds as [|? ? Hd Hds']; subst. cbn [fst snd] in Hd.
    destruct (count_total g stone row col dr dc fuel Hwf Hd Hfuel)
      as (n & Htot & Hcount).
    cbn [check_axes]. rewrite (bind_ok _ _ _ _ _ Hcount).
    destruct (Z.leb_spec 5 n) as [Hge | Hlt].
    + left. split; [|reflexivity].
      exists (dr, dc), n. split; [left|]; auto.
    + destruct (IH Hds') as [[(d & m & Hin & Hm & Hge) Heq] | [Hnone Heq]].
      * left. split; [|exact Heq]. exists d, m. split; [right|]; auto.
      * right. split; [|exact Heq].
        intros d m Hin Hm. apply elem_of_cons in Hin as [-> | Hin].
        -- rewrite (axis_total_unique _ _ _ _ _ _ _ Hm Htot). exact Hlt.
        -- exact (Hnone d m Hin Hm).
Qed.

Lemma check_winner_total g stone row col fuel :
  wf g -> (Z.to_nat (size g) < fuel)%nat ->
  PLAYER_STONES !! current_player g = Some stone ->
  ((exists d n, d ∈ directions /\ axis_total g stone row col d n /\ 5 <= n) /\
   check_winner fuel row col g
   = (Ok (mkMoveResult (Some (current_player g)) false), g, []))
  \/
  ((forall d n, d ∈ directions -> axis_total g stone row col d n -> n < 5) /\
   check_winner fuel row col g = (Ok (no_line_result g), g, [])).
Proof.
  intros Hwf Hfuel Hstone. unfold check_winner.
  rewrite (bind_ok _ _ g g g) by reflexivity.
  rewrite (bind_ok _ _ g g stone)
    by (unfold dict_getitem; rewrite Hstone; reflexivity).
  destruct (check_axes_total g stone row col fuel
    (bind get_self (fun self =>
       if moves_played self =? size self * size self
       then ret (mkMoveResult None true) else ret MoveResult_default))
    Hwf Hfuel directions directions_unit_steps)
    as [[Hex Heq] | [Hnone Heq]].
  - left. split; [exact Hex | exact Heq].
  - right. split; [exact Hnone|]. rewrite Heq.
    rewrite (bind_ok _ _ g g g) by reflexivity.
    unfold no_line_result. case_match; reflexivity.
Qed.

Lemma wf_stone g :
  wf g ->
  exists stone, PLAYER_STONES !! current_player g = Some stone /\
                (stone = "X" \/ stone = "O").
Proof.
  intros [[Hp | Hp] _ _]; rewrite Hp.
  - exists "X". split; [reflexivity | auto].
  - exists "O". split; [reflexivity | auto].
Qed.

(** ** [place_stone] *)

Lemma place_stone_off_board g row col :
  on_board g row col = false ->
  place_stone row col g = (Ok false, g, [off_board_message]).
Proof.
  intros Hoff. unfold place_stone.
  rewrite (bind_ok _ _ g g g) by reflexivity.
  rewrite Hoff. reflexivity.
Qed.

Lemma place_stone_occupied g row col cell :
  wf g -> cell_at g row col = Some cell -> cell <> EMPTY ->
  place_stone row col g = (Ok false, g, [occupied_message]).
Proof.
  intros Hwf Hat Hne. unfold place_stone.
  rewrite (bind_ok _ _ g g g) by reflexivity.
  pose proof (cell_at_on_board _ _ _ _ Hat) as Hon. rewrite Hon. cbn [negb].
  match goal with
  | |- bind _ (fun line => bind _ ?k) g = _ =>
      destruct (read_cell g row col k Hwf Hon) as (cell' & Hat' & ->)
  end.
  assert (cell' = cell) as -> by congruence.
  destruct (String.eqb_spec cell EMPTY); [contradiction|]. reflexivity.
Qed.

Lemma place_stone_empty g row col stone :
  wf g -> cell_at g row col = Some EMPTY ->
  PLAYER_STONES !! current_player g = Some stone ->
  place_stone row col g
  = (Ok true,
     mkGame (size g) (board_with (board g) row col stone)
       (current_player g) (moves_played g + 1),
     []).
Proof.
  intros Hwf Hat Hstone. unfold place_stone.
  rewrite (bind_ok _ _ g g g) by reflexivity.
  pose proof (cell_at_on_board _ _ _ _ Hat) as Hon. rewrite Hon. cbn [negb].
  match goal with
  | |- bind _ (fun line => bind _ ?k) g = _ =>
      destruct (read_cell g row col k Hwf Hon) as (cell' & Hat' & ->)
  end.
  assert (cell' = EMPTY) as -> by congruence.
  rewrite String.eqb_refl. cbn [negb].
  destruct (wf_cell g row col Hwf Hon) as (line & cell & Hline & Hcell & Hlen & _).
  pose proof Hon as Hb. apply on_board_spec in Hb as [Hr Hc].
  destruct Hwf as [_ Hrows _].
  rewrite (bind_ok _ _ g g stone)
    by (unfold dict_getitem; rewrite Hstone; reflexivity).
  rewrite (bind_ok _ _ g g line) by (apply getitem_lookup; [lia|done]).
  rewrite (bind_ok _ _ g g _) by (apply setitem_insert; lia).
  rewrite (bind_ok _ _ g g _) by (apply setitem_insert; lia).
  unfold board_with. rewrite Hline. reflexivity.
Qed.

Lemma board_with_lookup g row col stone r c :
  wf g -> on_board g row col = true ->
  cell_at (mkGame (size g) (board_with (board g) row col stone)
             (current_player g) (moves_played g + 1)) r c
  = if decide (r = row /\ c = col) then Some stone else cell_at g r c.
Proof.
  intros Hwf Hon.
  destruct (wf_cell g row col Hwf Hon) as (line & cell & Hline & Hcell & Hlen & _).
  pose proof Hon as Hb. apply on_board_spec in Hb as [Hr Hc].
  unfold cell_at, on_board, board_with. cbn [size board]. rewrite Hline.
  fold (on_board g r c).
  destruct (on_board g r c) eqn:Hrc.
  - apply on_board_spec in Hrc as [Hr' Hc'].
    destruct (decide (r = row)) as [-> | Hner].
    + rewrite list_lookup_insert_eq by (eapply lookup_lt_Some; eassumption).
      rewrite Hline.
      destruct (decide (c = col)) as [-> | Hnec].
      * rewrite list_lookup_insert_eq by lia.
        rewrite decide_True by auto. reflexivity.
      * rewrite list_lookup_insert_ne by lia.
        rewrite decide_False by tauto. reflexivity.
    + rewrite list_lookup_insert_ne by lia.
      rewrite decide_False by tauto. reflexivity.
  - apply on_board_false in Hrc.
    rewrite decide_False by (intros [-> ->]; tauto). reflexivity.
Qed.

Lemma board_with_wf g row col stone :
  wf g ->
  wf (mkGame (size g) (board_with (board g) row col stone)
        (current_player g) (moves_played g + 1)).
Proof.
  intros [Hp Hrows Hcols]. unfold board_with.
  destruct (board g !! Z.to_nat row) as [line|] eqn:Hline;
    [|constructor; assumption].
  constructor; cbn [size board current_player].
  - exact Hp.
  - rewrite length_insert. exact Hrows.
  - apply Forall_insert; [exact Hcols|].
    rewrite length_insert.
    rewrite Forall_lookup in Hcols. exact (Hcols _ _ Hline).
Qed.

(** ** Counting the stones on the board *)

Lemma occupied_in_cons cell line :
  occupied_in (cell :: line)
  = (if decide (cell <> EMPTY) then 1 else 0) + occupied_in line.
Proof.
  unfold occupied_in. rewrite filter_cons.
  destruct (decide (cell <> EMPTY)); cbn [length]; lia.
Qed.

Lemma occupied_in_insert line c stone :
  line !! c = Some EMPTY -> stone <> EMPTY ->
  occupied_in (<[c := stone]> line) = occupied_in line + 1.
Proof.
  revert c. induction line as [|cell line IH]; intros c Hc Hne.
  - discriminate.
  - destruct c as [|c]; cbn in Hc.
    + injection Hc as ->.
      change (<[0%nat := stone]> (EMPTY :: line)) with (stone :: line).
      rewrite !occupied_in_cons.
      rewrite decide_True by exact Hne.
      rewrite decide_False by (intros H; apply H; reflexivity). lia.
    + change (<[S c := stone]> (cell :: line))
        with (cell :: <[c := stone]> line).
      rewrite !occupied_in_cons. rewrite (IH c Hc Hne). lia.
Qed.

Lemma occupied_cons line b : occupied (line :: b) = occupied_in line + occupied b.
Proof. reflexivity. Qed.

Lemma occupied_insert b r line line' :
  b !! r = Some line ->
  occupied (<[r := line']> b) = occupied b - occupied_in line + occupied_in line'.
Proof.
  revert r. induction b as [|l b IH]; intros r Hr.
  - discriminate.
  - destruct r as [|r]; cbn in Hr.
    + injection Hr as ->.
      change (<[0%nat := line']> (line :: b)) with (line' :: b).
      rewrite !occupied_cons. lia.
    + change (<[S r := line']> (l :: b)) with (l :: <[r := line']> b).
      rewrite !occupied_cons. rewrite (IH r Hr). lia.
Qed.

Lemma occupied_create_board n : occupied (create_board n) = 0.
Proof.
  unfold create_board.
  assert (Hline : forall m, occupied_in (replicate m EMPTY) = 0).
  { induction m as [|m IHm]; [reflexivity|].
    cbn [replicate]. rewrite occupied_in_cons, IHm.
    rewrite decide_False by (intros H; apply H; reflexivity). lia. }
  generalize (Z.to_nat n) at 1. intros k.
  induction k as [|k IHk]; [reflexivity|].
  cbn [replicate]. rewrite occupied_cons, IHk, Hline. lia.
Qed.

Lemma stone_not_empty p stone :
  PLAYER_STONES !! p = Some stone -> stone <> EMPTY.
Proof.
  unfold PLAYER_STONES. intros H.
  apply lookup_insert_Some in H as [[_ <-] | [_ H]]; [discriminate|].
  apply lookup_insert_Some in H as [[_ <-] | [_ H]]; [discriminate|].
  rewrite lookup_empty in H. discriminate.
Qed.

Lemma occupied_board_with g row col stone :
  wf g -> cell_at g row col = Some EMPTY -> stone <> EMPTY ->
  occupied (board_with (board g) row col stone) = occupied (board g) + 1.
Proof.
  intros Hwf Hat Hne.
  pose proof (cell_at_on_board _ _ _ _ Hat) as Hon.
  destruct (wf_cell g row col Hwf Hon) as (line & cell & Hline & Hcell & _ & Hat').
  assert (cell = EMPTY) as -> by congruence.
  unfold board_with. rewrite Hline.
  rewrite (occupied_insert _ _ line) by exact Hline.
  rewrite (occupied_in_insert _ _ _ Hcell Hne). lia.
Qed.

Lemma wf_init n : wf (__init__ n).
Proof.
  constructor; cbn.
  - auto.
  - unfold create_board. apply length_replicate.
  - unfold create_board. apply Forall_replicate. apply length_replicate.
Qed.

(** ** The states a game goes through *)

Lemma self_after_bind {A B} (m : M A) (f : A -> M B) g :
  self_after m g = g /\ (forall a, self_after (f a) g = g) ->
  self_after (bind m f) g = g.
Proof.
  unfold self_after, bind. intros [Hm Hf].
  destruct (m g) as [[[a | e] g1] out1]; cbn in Hm; subst g1; [|reflexivity].
  specialize (Hf a). destruct (f a g) as [[r g2] out2]. exact Hf.
Qed.

Lemma self_after_for_each {A S} (body : A -> S -> M S) g :
  (forall x acc, self_after (body x acc) g = g) ->
  forall (xs : list A) (acc : S), self_after (for_each xs body acc) g = g.
Proof.
  intros Hbody. induction xs as [|x xs IH]; intros acc; cbn [for_each].
  - reflexivity.
  - apply self_after_bind. split; [apply Hbody | exact IH].
Qed.

Lemma print_board_self g : self_after print_board g = g.
Proof.
  unfold print_board.
  apply self_after_bind. split; [reflexivity|]. intros self.
  apply self_after_bind. split; [reflexivity|]. intros _.
  apply self_after_for_each. intros [idx row] acc. reflexivity.
Qed.

Lemma check_winner_self fuel row col g :
  self_after (check_winner fuel row col) g = g.
Proof.
  destruct (reads_only_check_winner fuel row col g) as [r Hr].
  unfold self_after. rewrite Hr. reflexivity.
Qed.

Lemma switch_player_self g :
  self_after switch_player g
  = mkGame (size g) (board g)
      (if String.eqb (current_player g) "black" then "white" else "black")
      (moves_played g).
Proof. reflexivity. Qed.

(** The three ways [place_stone] ends on a well-formed object. *)
Lemma place_stone_cases g row col :
  wf g ->
  (on_board g row col = false /\
   place_stone row col g = (Ok false, g, [off_board_message]))
  \/
  (exists cell, cell_at g row col = Some cell /\ cell <> EMPTY /\
   place_stone row col g = (Ok false, g, [occupied_message]))
  \/
  (exists stone, cell_at g row col = Some EMPTY /\
   PLAYER_STONES !! current_player g = Some stone /\
   place_stone row col g
   = (Ok true,
      mkGame (size g) (board_with (board g) row col stone)
        (current_player g) (moves_played g + 1),
      [])).
Proof.
  intros Hwf. destruct (on_board g row col) eqn:Hon.
  - right. destruct (wf_cell g row col Hwf Hon) as (line & cell & _ & _ & _ & Hat).
    destruct (decide (cell = EMPTY)) as [-> | Hne].
    + right. destruct (wf_stone g Hwf) as (stone & Hstone & _).
      exists stone. auto using place_stone_empty.
    + left. exists cell. eauto using place_stone_occupied.
  - left. auto using place_stone_off_board.
Qed.

Lemma after_wf g c : wf g -> wf (after c g).
Proof.
  intros Hwf. destruct c as [row col | fuel row col | |]; cbn [after].
  - destruct (place_stone_cases g row col Hwf)
      as [[_ E] | [(cell & _ & _ & E) | (stone & _ & _ & E)]];
      unfold self_after; rewrite E; cbn [fst snd]; auto using board_with_wf.
  - rewrite check_winner_self. exact Hwf.
  - rewrite switch_player_self. destruct Hwf as [Hp Hrows Hcols].
    constructor; cbn [size board current_player]; [|assumption..].
    destruct (String.eqb (current_player g) "black"); auto.
  - rewrite print_board_self. exact Hwf.
Qed.

Lemma after_counter_agrees g c :
  wf g -> counter_agrees g -> counter_agrees (after c g).
Proof.
  intros Hwf Hinv. destruct c as [row col | fuel row col | |]; cbn [after].
  - destruct (place_stone_cases g row col Hwf)
      as [[_ E] | [(cell & _ & _ & E) | (stone & Hat & Hstone & E)]];
      unfold self_after; rewrite E; cbn [fst snd]; [exact Hinv..|].
    unfold counter_agrees in *. cbn [moves_played board].
    rewrite (occupied_board_with g row col stone Hwf Hat)
      by (eapply stone_not_empty; eassumption).
    lia.
  - rewrite check_winner_self. exact Hinv.
  - rewrite switch_player_self. exact Hinv.
  - rewrite print_board_self. exact Hinv.
Qed.

Lemma reachable_wf g : reachable g -> wf g.
Proof. induction 1; [apply wf_init | apply after_wf; assumption]. Qed.

(** ** Changing one cell *)

Lemma cell_at_ext g1 g2 r c :
  size g1 = size g2 -> board g1 = board g2 -> cell_at g1 r c = cell_at g2 r c.
Proof.
  intros Hs Hb. unfold cell_at, on_board. rewrite Hs, Hb. reflexivity.
Qed.

Lemma set_cell_lookup g row col v r c :
  wf g -> on_board g row col = true ->
  cell_at (set_cell g row col v) r c
  = if decide (r = row /\ c = col) then Some v else cell_at g r c.
Proof.
  intros Hwf Hon. rewrite <- (board_with_lookup g row col v r c Hwf Hon).
  apply cell_at_ext; reflexivity.
Qed.

Lemma set_cell_wf g row col v : wf g -> wf (set_cell g row col v).
Proof.
  intros Hwf. destruct (board_with_wf g row col v Hwf) as [Hp Hrows Hcols].
  constructor; assumption.
Qed.

(** A streak from a cell never comes back to it, so it is the same one
    whatever the cell holds. *)
Lemma streak_set_cell g stone row col a b v k :
  wf g -> on_board g row col = true -> unit_step a b ->
  streak (set_cell g row col v) stone row col a b k <-> streak g stone row col a b k.
Proof.
  intros Hwf Hon (Ha & Hb & Hab).
  assert (Hother : forall i, 1 <= i ->
    cell_at (set_cell g row col v) (row + i * a) (col + i * b)
    = cell_at g (row + i * a) (col + i * b)).
  { intros i Hi. rewrite set_cell_lookup by assumption.
    apply decide_False. intros [Hr Hc]. nia. }
  unfold streak. split; intros (Hk & Hall & Hend); repeat split; try assumption.
  - intros i Hi. rewrite <- Hother by lia. auto.
  - rewrite <- Hother by lia. exact Hend.
  - intros i Hi. rewrite Hother by lia. auto.
  - rewrite Hother by lia. exact Hend.
Qed.

Lemma axis_total_set_cell g stone row col d v n :
  wf g -> on_board g row col = true -> unit_step (fst d) (snd d) ->
  axis_total (set_cell g row col v) stone row col d n
  <-> axis_total g stone row col d n.
Proof.
  intros Hwf Hon Hstep.
  assert (Hback : unit_step (- fst d) (- snd d)).
  { destruct Hstep as (Ha & Hb & Hab). unfold unit_step. lia. }
  unfold axis_total. split; intros (kp & kn & Hp & Hn & ->); exists kp, kn.
  - rewrite streak_set_cell in Hp, Hn by assumption. auto.
  - rewrite !streak_set_cell by assumption. auto.
Qed.

(** ** More on the loop over the axes *)

Lemma blocked_not_stone g stone r c :
  wf g -> PLAYER_STONES !! current_player g = Some stone ->
  blocked g r c -> cell_at g r c <> Some stone.
Proof.
  intros [Hp _ _] Hstone [Hnone | (s & Hs & Hat)]; [congruence|].
  rewrite Hat. destruct Hp as [Hp | Hp]; rewrite Hp in Hstone, Hs;
    vm_compute in Hstone, Hs; congruence.
Qed.

(** Once an axis qualifies the loop has returned: the axes after it and
    what follows the loop play no part. *)
Lemma check_axes_first g fuel stone row col d n post rest rest' :
  count fuel stone row col (fst d) (snd d) g = (Ok n, g, []) -> 5 <= n ->
  forall pre : list (Z * Z),
    check_axes fuel stone row col (pre ++ d :: post)%list rest g
    = check_axes fuel stone row col (pre ++ [d])%list rest' g.
Proof.
  intros Hcount Hn. induction pre as [|[dr dc] pre IH].
  - destruct d as [dr dc]. cbn [app check_axes fst snd] in *.
    rewrite !(bind_ok _ _ _ _ _ Hcount).
    destruct (Z.leb_spec 5 n); [reflexivity | lia].
  - cbn [app check_axes].
    destruct (reads_only_count fuel stone row col dr dc g) as [[m | e] Hm].
    + rewrite !(bind_ok _ _ _ _ _ Hm). case_match; [reflexivity | exact IH].
    + rewrite !(bind_raise _ _ _ _ _ _ Hm). reflexivity.
Qed.

Lemma count_one g fuel stone row col dr dc :
  wf g -> (Z.to_nat (size g) < fuel)%nat -> unit_step dr dc ->
  cell_at g (row + dr) (col + dc) <> Some stone ->
  cell_at g (row - dr) (col - dc) <> Some stone ->
  count fuel stone row col dr dc g = (Ok 1, g, []).
Proof.
  intros Hwf Hfuel Hstep Hfore Hback.
  destruct (count_total g stone row col dr dc fuel Hwf Hstep Hfuel)
    as (n & Htot & Hcount).
  assert (Hone : axis_total g stone row col (dr, dc) 1).
  { exists 0, 0. cbn [fst snd]. split; [|split; [|lia]].
    - apply streak_zero. exact Hfore.
    - apply streak_zero.
      replace (row + - dr) with (row - dr) by lia.
      replace (col + - dc) with (col - dc) by lia. exact Hback. }
  rewrite (axis_total_unique _ _ _ _ _ _ _ Htot Hone) in Hcount. exact Hcount.
Qed.

Lemma directions_unit_step d : d ∈ directions -> unit_step (fst d) (snd d).
Proof.
  intros Hd. pose proof directions_unit_steps as H.
  rewrite Forall_forall in H. exact (H d Hd).
Qed.

(** Four stones in a row through [(row, col)], the [j]-th of them, with
    both ends stopped, total four on that axis. *)
Lemma four_total g stone row col dr dc j :
  0 <= j <= 3 ->
  (forall i, 0 <= i <= 3 ->
     cell_at g (row + (i - j) * dr) (col + (i - j) * dc) = Some stone) ->
  cell_at g (row + (-1 - j) * dr) (col + (-1 - j) * dc) <> Some stone ->
  cell_at g (row + (4 - j) * dr) (col + (4 - j) * dc) <> Some stone ->
  axis_total g stone row col (dr, dc) 4.
Proof.
  intros Hj Hfour Hlow Hhigh. exists (3 - j), j. cbn [fst snd].
  split; [|split; [|lia]]; (split; [lia|split]).
  - intros i Hi. specialize (Hfour (i + j) ltac:(lia)).
    replace (i + j - j) with i in Hfour by lia. exact Hfour.
  - replace (3 - j + 1) with (4 - j) by lia. exact Hhigh.
  - intros i Hi. specialize (Hfour (j - i) ltac:(lia)).
    replace (row + i * - dr) with (row + (j - i - j) * dr) by lia.
    replace (col + i * - dc) with (col + (j - i - j) * dc) by lia.
    exact Hfour.
  - replace (row + (j + 1) * - dr) with (row + (-1 - j) * dr) by lia.
    replace (col + (j + 1) * - dc) with (col + (-1 - j) * dc) by lia.
    exact Hlow.
Qed.

(** With the cell itself holding the stone, an axis totals five or more
    exactly when five cells in a row on it, the cell among them, hold
    the stone. *)
Lemma total_five_iff g stone row col d n :
  cell_at g row col = Some stone ->
  axis_total g stone row col d n ->
  5 <= n <->
  exists s, -4 <= s <= 0 /\
    forall i, s <= i <= s + 4 ->
      cell_at g (row + i * fst d) (col + i * snd d) = Some stone.
Proof.
  intros Hplaced (kp & kn & (Hkp & Hfore & Hfore_end) &
                  (Hkn & Hback & Hback_end) & ->).
  split.
  - intros Hn. exists (Z.max (-4) (- kn)). split; [lia|].
    intros i Hi.
    destruct (Z.lt_trichotomy i 0) as [Hneg | [-> | Hpos]].
    + specialize (Hback (- i) ltac:(lia)).
      replace (row + - i * - fst d) with (row + i * fst d) in Hback by lia.
      replace (col + - i * - snd d) with (col + i * snd d) in Hback by lia.
      exact Hback.
    + replace (row + 0 * fst d) with row by lia.
      replace (col + 0 * snd d) with col by lia. exact Hplaced.
    + apply Hfore. lia.
  - intros (s & Hs & Hwindow).
    assert (s + 4 <= kp).
    { destruct (Z_le_gt_dec (s + 4) kp) as [|Hgt]; [assumption|].
      exfalso. apply Hfore_end. apply Hwindow. lia. }
    assert (- s <= kn).
    { destruct (Z_le_gt_dec (- s) kn) as [|Hgt]; [assumption|].
      exfalso. apply Hback_end.
      specialize (Hwindow (- (kn + 1)) ltac:(lia)).
      replace (row + (kn + 1) * - fst d) with (row + - (kn + 1) * fst d) by lia.
      replace (col + (kn + 1) * - snd d) with (col + - (kn + 1) * snd d) by lia.
      exact Hwindow. }
    lia.
Qed.

(** * The properties *)

(** ** The outcome check *)

(** C1. After a stone of the player to move has been placed at
    [(row, col)], [check_winner] goes through the axes (1,0), (0,1),
    (1,1), (1,-1) in this order; the count of an axis is the placed cell
    plus the streaks of cells holding the same stone on both sides, each
    streak ending at the first cell that is off the board or holds
    something else; the result is the win of the player to move exactly
    when the total of some axis is at least five, and the loop returns at
    the first such axis. *)
Theorem check_winner_counts_axes g fuel row col stone :
  wf g -> (Z.to_nat (size g) < fuel)%nat ->
  PLAYER_STONES !! current_player g = Some stone ->
  cell_at g row col = Some stone ->
  directions = [(1, 0); (0, 1); (1, 1); (1, -1)] /\
  (forall d, d ∈ directions ->
     exists n, axis_total g stone row col d n /\
               count fuel stone row col (fst d) (snd d) g = (Ok n, g, [])) /\
  (exists mr,
     check_winner fuel row col g = (Ok mr, g, []) /\
     (mr = win g <-> line_of_five g stone row col) /\
     (winner mr = Some (current_player g) <-> line_of_five g stone row col)) /\
  (forall (pre post : list (Z * Z)) d n rest rest',
     directions = (pre ++ d :: post)%list ->
     count fuel stone row col (fst d) (snd d) g = (Ok n, g, []) -> 5 <= n ->
     check_axes fuel stone row col directions rest g
     = check_axes fuel stone row col (pre ++ [d])%list rest' g).
Proof.
  intros Hwf Hfuel Hstone Hplaced. split; [reflexivity|]. split; [|split].
  - intros [dr dc] Hd. apply count_total; [assumption | | assumption].
    exact (directions_unit_step _ Hd).
  - destruct (check_winner_total g stone row col fuel Hwf Hfuel Hstone)
      as [[Hline Heq] | [Hnone Heq]].
    + exists (win g). repeat split; auto.
    + exists (no_line_result g). split; [exact Heq|].
      assert (Hno : ~ line_of_five g stone row col).
      { intros (d & n & Hd & Htot & Hn). specialize (Hnone d n Hd Htot). lia. }
      unfold no_line_result, win, MoveResult_default.
      split; (split; [|tauto]); case_match; cbn; congruence.
  - intros pre post d n rest rest' Hsplit Hcount Hn. rewrite Hsplit.
    eapply check_axes_first; eassumption.
Qed.

Lemma check_winner_counts_axes_witness :
  wf crossing_lines /\
  (exists mr,
     check_winner 16 4 0 crossing_lines = (Ok mr, crossing_lines, []) /\
     (mr = win crossing_lines <-> line_of_five crossing_lines "X" 4 0) /\
     (winner mr = Some (current_player crossing_lines)
      <-> line_of_five crossing_lines "X" 4 0)).
Proof.
  assert (Hwf : wf crossing_lines) by wf_by_evaluation.
  split; [exact Hwf|].
  apply (check_winner_counts_axes crossing_lines 16 4 0 "X").
  - exact Hwf.
  - vm_compute. lia.
  - vm_compute. reflexivity.
  - vm_compute. reflexivity.
Defined.

(** C5. After a placement, when no axis through the placed cell totals
    five, [check_winner] returns the draw if [moves_played] is
    [size * size] and the default result (the game goes on) otherwise;
    when some axis does, it returns the win, also on the move that fills
    the board. *)
Theorem check_winner_draw_or_ongoing g fuel row col stone :
  wf g -> (Z.to_nat (size g) < fuel)%nat ->
  PLAYER_STONES !! current_player g = Some stone ->
  cell_at g row col = Some stone ->
  (~ line_of_five g stone row col ->
   (moves_played g = size g * size g ->
    check_winner fuel row col g = (Ok (mkMoveResult None true), g, [])) /\
   (moves_played g <> size g * size g ->
    check_winner fuel row col g = (Ok (mkMoveResult None false), g, []))) /\
  (line_of_five g stone row col ->
   check_winner fuel row col g
   = (Ok (mkMoveResult (Some (current_player g)) false), g, [])).
Proof.
  intros Hwf Hfuel Hstone Hplaced.
  destruct (check_winner_total g stone row col fuel Hwf Hfuel Hstone)
    as [[Hline Heq] | [Hnone Heq]].
  - split; [intros Hno; contradiction | intros _; exact Heq].
  - assert (Hno : ~ line_of_five g stone row col).
    { intros (d & n & Hd & Htot & Hn). specialize (Hnone d n Hd Htot). lia. }
    split; [intros _ | intros Hline; contradiction].
    rewrite Heq. unfold no_line_result, MoveResult_default.
    split; intros Hmoves.
    + rewrite (proj2 (Z.eqb_eq _ _) Hmoves). reflexivity.
    + rewrite (proj2 (Z.eqb_neq _ _) Hmoves). reflexivity.
Qed.

Lemma check_winner_draw_or_ongoing_witness :
  line_of_five full_board_win "X" 0 4 /\
  moves_played full_board_win = size full_board_win * size full_board_win /\
  check_winner 6 0 4 full_board_win
  = (Ok (mkMoveResult (Some "black") false), full_board_win, []).
Proof.
  assert (Hline : line_of_five full_board_win "X" 0 4).
  { exists (0, 1), 5. split; [|split; [|lia]].
    - in_directions.
    - exists 0, 4. cbn [fst snd]. split; [|split; [|lia]].
      + apply streak_zero. vm_compute. discriminate.
      + split; [lia|]. split.
        * intros i Hi.
          assert (i = 1 \/ i = 2 \/ i = 3 \/ i = 4) as [-> | [-> | [-> | ->]]]
            by lia; vm_compute; reflexivity.
        * vm_compute. discriminate. }
  split; [exact Hline|]. split; [vm_compute; reflexivity|].
  apply (check_winner_draw_or_ongoing full_board_win 6 0 4 "X").
  - wf_by_evaluation.
  - vm_compute. lia.
  - vm_compute. reflexivity.
  - vm_compute. reflexivity.
  - exact Hline.
Defined.

(** C6. [check_winner] changes nothing: whatever the object and the
    coordinates, the object afterwards (board, [moves_played],
    [current_player], [size]) is the object before and nothing is
    printed; and on a well-formed object it returns a result. *)
Theorem check_winner_reads_only fuel row col g :
  (exists r, check_winner fuel row col g = (r, g, [])) /\
  (wf g -> (Z.to_nat (size g) < fuel)%nat ->
   exists mr, check_winner fuel row col g = (Ok mr, g, [])).
Proof.
  split; [apply reads_only_check_winner|].
  intros Hwf Hfuel. destruct (wf_stone g Hwf) as (stone & Hstone & _).
  destruct (check_winner_total g stone row col fuel Hwf Hfuel Hstone)
    as [[_ Heq] | [_ Heq]]; eauto.
Qed.

Lemma check_winner_reads_only_witness :
  exists mr, check_winner 16 4 0 crossing_lines = (Ok mr, crossing_lines, []).
Proof.
  apply (check_winner_reads_only 16 4 0 crossing_lines).
  - wf_by_evaluation.
  - vm_compute. lia.
Defined.

(** ** Placing a stone *)

(** C2. [place_stone] fails exactly when [row] or [col] is outside
    [0, size), or the cell is on the board and is not [EMPTY]; when it
    fails the object is left as it was.  So it is at [(-1, 0)],
    [(size, 0)] and [(0, size)]. *)
Theorem place_stone_rejects g row col :
  wf g ->
  (exists ok g' out,
     place_stone row col g = (Ok ok, g', out) /\
     (ok = false <->
      ~ (0 <= row < size g /\ 0 <= col < size g) \/
      ((0 <= row < size g /\ 0 <= col < size g) /\
       cell_at g row col <> Some EMPTY)) /\
     (ok = false -> g' = g)) /\
  (~ (0 <= row < size g /\ 0 <= col < size g) ->
   place_stone row col g = (Ok false, g, [off_board_message])) /\
  ((0 <= row < size g /\ 0 <= col < size g) ->
   cell_at g row col <> Some EMPTY ->
   place_stone row col g = (Ok false, g, [occupied_message])) /\
  place_stone (-1) 0 g = (Ok false, g, [off_board_message]) /\
  place_stone (size g) 0 g = (Ok false, g, [off_board_message]) /\
  place_stone 0 (size g) g = (Ok false, g, [off_board_message]).
Proof.
  intros Hwf.
  assert (Hoff : forall r c, ~ (0 <= r < size g /\ 0 <= c < size g) ->
    place_stone r c g = (Ok false, g, [off_board_message])).
  { intros r c Hrc. apply place_stone_off_board.
    apply on_board_false. exact Hrc. }
  split; [|split; [apply Hoff | split; [|repeat split; apply Hoff; lia]]].
  - destruct (place_stone_cases g row col Hwf)
      as [[Hon E] | [(cell & Hat & Hne & E) | (stone & Hat & _ & E)]].
    + apply on_board_false in Hon.
      exists false, g, [off_board_message]. repeat split; auto.
    + pose proof (cell_at_on_board _ _ _ _ Hat) as Hon.
      apply on_board_spec in Hon.
      exists false, g, [occupied_message]. repeat split; auto.
      intros _. right. split; [exact Hon|]. rewrite Hat. congruence.
    + pose proof (cell_at_on_board _ _ _ _ Hat) as Hon.
      apply on_board_spec in Hon.
      eexists true, _, []. split; [exact E|].
      split; [|discriminate]. split; [discriminate|].
      intros [Hout | [_ Hfull]]; contradiction.
  - intros Hin Hfull.
    destruct (place_stone_cases g row col Hwf)
      as [[Hon E] | [(cell & Hat & Hne & E) | (stone & Hat & _ & E)]].
    + apply on_board_false in Hon. contradiction.
    + exact E.
    + contradiction.
Qed.

Lemma place_stone_rejects_witness :
  place_stone (-1) 0 corner_stone = (Ok false, corner_stone, [off_board_message])
  /\ place_stone 15 0 corner_stone = (Ok false, corner_stone, [off_board_message])
  /\ place_stone 0 15 corner_stone = (Ok false, corner_stone, [off_board_message])
  /\ place_stone 0 0 corner_stone = (Ok false, corner_stone, [occupied_message]).
Proof.
  assert (Hwf : wf corner_stone) by wf_by_evaluation.
  pose proof (place_stone_rejects corner_stone 0 0 Hwf)
    as (_ & _ & Hfull & Ha & Hb & Hc).
  split; [exact Ha | split; [exact Hb | split; [exact Hc|]]].
  apply Hfull; [vm_compute; intuition discriminate | vm_compute; discriminate].
Defined.

(** C3. On an [EMPTY] cell of the board [place_stone] succeeds: that
    cell now holds the stone of the player to move, every other cell is
    as before, [moves_played] is one more, and [current_player] is the
    same. *)
Theorem place_stone_places g row col :
  wf g -> cell_at g row col = Some EMPTY ->
  (0 <= row < size g /\ 0 <= col < size g) /\
  exists stone g',
    PLAYER_STONES !! current_player g = Some stone /\
    place_stone row col g = (Ok true, g', []) /\
    cell_at g' row col = Some stone /\
    (forall r c, (r, c) <> (row, col) -> cell_at g' r c = cell_at g r c) /\
    moves_played g' = moves_played g + 1 /\
    current_player g' = current_player g /\
    size g' = size g /\
    wf g'.
Proof.
  intros Hwf Hat.
  pose proof (cell_at_on_board _ _ _ _ Hat) as Hon.
  split; [apply on_board_spec; exact Hon|].
  destruct (wf_stone g Hwf) as (stone & Hstone & _).
  exists stone. eexists. split; [exact Hstone|].
  split; [exact (place_stone_empty g row col stone Hwf Hat Hstone)|].
  split; [|split; [|do 3 (split; [reflexivity|])]].
  - rewrite board_with_lookup by assumption.
    apply decide_True. auto.
  - intros r c Hne. rewrite board_with_lookup by assumption.
    apply decide_False. intros [-> ->]. congruence.
  - apply board_with_wf. exact Hwf.
Qed.

Lemma place_stone_places_witness :
  exists stone g',
    PLAYER_STONES !! current_player corner_stone = Some stone /\
    place_stone 7 7 corner_stone = (Ok true, g', []) /\
    cell_at g' 7 7 = Some stone /\
    (forall r c, (r, c) <> (7, 7) -> cell_at g' r c = cell_at corner_stone r c) /\
    moves_played g' = moves_played corner_stone + 1 /\
    current_player g' = current_player corner_stone /\
    size g' = size corner_stone /\
    wf g'.
Proof.
  apply (place_stone_places corner_stone 7 7).
  - wf_by_evaluation.
  - vm_compute. reflexivity.
Defined.

(** C4. [moves_played] is the number of cells that are not [EMPTY]: in
    the object [__init__] builds, after every call of [place_stone]
    (accepted or refused), [check_winner], [switch_player] and
    [print_board] on an object where it holds, and so in every object a
    game reaches. *)
Theorem counter_agrees_always :
  (forall n,
     moves_played (__init__ n) = 0 /\ occupied (board (__init__ n)) = 0 /\
     counter_agrees (__init__ n)) /\
  (forall g c, wf g -> counter_agrees g -> counter_agrees (after c g)) /\
  (forall g, reachable g -> counter_agrees g).
Proof.
  assert (Hnew : forall n, counter_agrees (__init__ n)).
  { intros n. unfold counter_agrees. cbn [__init__ moves_played board].
    rewrite occupied_create_board. reflexivity. }
  split; [|split].
  - intros n. split; [reflexivity|]. split; [apply occupied_create_board|].
    apply Hnew.
  - apply after_counter_agrees.
  - induction 1 as [n | g c Hreach IH]; [apply Hnew|].
    apply after_counter_agrees; [apply reachable_wf; exact Hreach | exact IH].
Qed.

Lemma counter_agrees_always_witness :
  counter_agrees corner_stone /\
  counter_agrees (after (CallPlaceStone 7 7) corner_stone).
Proof.
  destruct counter_agrees_always as (_ & Hstep & Hreach).
  assert (Hcorner : counter_agrees corner_stone).
  { apply Hreach.
    exact (reachable_call _ (CallPlaceStone 0 0) (reachable_new BOARD_SIZE)). }
  split; [exact Hcorner|].
  apply Hstep; [wf_by_evaluation | exact Hcorner].
Defined.

(** ** Four in a row with both ends stopped *)

(** In [crossing_lines] the row (4,0) to (4,3) is such a four, and the
    check after its last stone, (4,0), returns the win of Black: not for
    the four, but for the five stones (0,0) to (4,0) of the column. *)
Example crossing_lines_wins_by_the_column :
  count 16 "X" 4 0 0 1 crossing_lines = (Ok 4, crossing_lines, []) /\
  count 16 "X" 4 0 1 0 crossing_lines = (Ok 5, crossing_lines, []) /\
  check_winner 16 4 0 crossing_lines
  = (Ok (mkMoveResult (Some "black") false), crossing_lines, []).
Proof. vm_compute. repeat split; reflexivity. Qed.

(** C7. Four stones of the player to move in a row on an axis, with the
    cell at each end off the board or held by the other player, count
    four on that axis, whichever of the four was placed last: the four
    never gives the win.  [check_winner] after such a stone names a
    winner only when one of the other three axes through the placed
    cell totals five, that is, only when five cells in a row through
    the placed cell do hold the player's stone; without such a line it
    names no winner. *)
Theorem blocked_four_is_no_line g fuel stone dr dc row col j :
  wf g -> (Z.to_nat (size g) < fuel)%nat ->
  PLAYER_STONES !! current_player g = Some stone ->
  (dr, dc) ∈ directions -> 0 <= j <= 3 ->
  (forall i, 0 <= i <= 3 ->
     cell_at g (row + (i - j) * dr) (col + (i - j) * dc) = Some stone) ->
  blocked g (row + (-1 - j) * dr) (col + (-1 - j) * dc) ->
  blocked g (row + (4 - j) * dr) (col + (4 - j) * dc) ->
  count fuel stone row col dr dc g = (Ok 4, g, []) /\
  exists mr,
    check_winner fuel row col g = (Ok mr, g, []) /\
    (winner mr = Some (current_player g) <->
     exists d n, d ∈ directions /\ d <> (dr, dc) /\
                 axis_total g stone row col d n /\ 5 <= n) /\
    ((forall d n, d ∈ directions -> d <> (dr, dc) ->
        axis_total g stone row col d n -> n < 5) ->
     winner mr = None) /\
    (winner mr <> None -> five_in_row g stone row col) /\
    (~ five_in_row g stone row col -> winner mr = None).
Proof.
  intros Hwf Hfuel Hstone Hd Hj Hfour Hlow Hhigh.
  assert (Hfour_total : axis_total g stone row col (dr, dc) 4).
  { apply (four_total g stone row col dr dc j Hj Hfour);
      eapply blocked_not_stone; eassumption. }
  assert (Hplaced : cell_at g row col = Some stone).
  { specialize (Hfour j Hj).
    replace (row + (j - j) * dr) with row in Hfour by lia.
    replace (col + (j - j) * dc) with col in Hfour by lia. exact Hfour. }
  split.
  - destruct (count_total g stone row col dr dc fuel Hwf
                (directions_unit_step _ Hd) Hfuel) as (n & Htot & Hcount).
    rewrite (axis_total_unique _ _ _ _ _ _ _ Htot Hfour_total) in Hcount.
    exact Hcount.
  - destruct (check_winner_total g stone row col fuel Hwf Hfuel Hstone)
      as [[(d & n & Hin & Htot & Hn) Heq] | [Hnone Heq]].
    + assert (Hother : d <> (dr, dc)).
      { intros ->.
        pose proof (axis_total_unique _ _ _ _ _ _ _ Htot Hfour_total). lia. }
      assert (Hfive : five_in_row g stone row col).
      { destruct (proj1 (total_five_iff g stone row col d n Hplaced Htot) Hn)
          as (s & Hs & Hwindow).
        exists d, s. auto. }
      exists (win g). split; [exact Heq|].
      split; [split; [intros _ | reflexivity]|].
      { exists d, n. auto. }
      split; [|split].
      * intros Hless. specialize (Hless d n Hin Hother Htot). lia.
      * intros _. exact Hfive.
      * intros Hno. contradiction.
    + assert (Hwinner : winner (no_line_result g) = None).
      { unfold no_line_result, MoveResult_default. case_match; reflexivity. }
      exists (no_line_result g). split; [exact Heq|].
      split; [split|].
      * rewrite Hwinner. discriminate.
      * intros (d & n & Hin & _ & Htot & Hn).
        specialize (Hnone d n Hin Htot). lia.
      * split; [|split].
        -- intros _. exact Hwinner.
        -- intros Hwin. contradiction.
        -- intros _. exact Hwinner.
Qed.

Lemma blocked_four_is_no_line_witness :
  count 16 "X" 4 0 0 1 blocked_four_game = (Ok 4, blocked_four_game, []) /\
  check_winner 16 4 0 blocked_four_game
  = (Ok MoveResult_default, blocked_four_game, []).
Proof.
  destruct (blocked_four_is_no_line blocked_four_game 16 "X" 0 1 4 0 0)
    as (Hcount & mr & Heq & _).
  - wf_by_evaluation.
  - vm_compute. lia.
  - vm_compute. reflexivity.
  - in_directions.
  - lia.
  - intros i Hi.
    assert (i = 0 \/ i = 1 \/ i = 2 \/ i = 3) as [-> | [-> | [-> | ->]]]
      by lia; vm_compute; reflexivity.
  - left. vm_compute. reflexivity.
  - right. exists "O". split; vm_compute; reflexivity.
  - split; [exact Hcount|]. rewrite Heq.
    assert (Hmr : returned (check_winner 16 4 0) blocked_four_game
                  = Ok MoveResult_default) by (vm_compute; reflexivity).
    unfold returned in Hmr. rewrite Heq in Hmr. cbn [fst] in Hmr.
    injection Hmr as ->. reflexivity.
Defined.

(** ** What a refused placement tells the caller *)

(** C8, as stated, fails: a placement off the board and a placement on
    a stone return the same value, [False]. *)
Lemma refusal_value_counterexample :
  on_board corner_stone (-1) 0 = false /\
  cell_at corner_stone 0 0 = Some "X" /\
  returned (place_stone (-1) 0) corner_stone = Ok false /\
  returned (place_stone 0 0) corner_stone = Ok false.
Proof. vm_compute. repeat split; reflexivity. Qed.

(** C8, amended.  A refused placement returns [False] whatever the
    reason; the reason is in the line that is printed, one line when the
    coordinate is outside [0, size) and another when the cell holds a
    stone, and the two lines differ. *)
Theorem place_stone_reports_by_printing g row col :
  wf g ->
  (~ (0 <= row < size g /\ 0 <= col < size g) ->
   returned (place_stone row col) g = Ok false /\
   printed (place_stone row col) g = [off_board_message]) /\
  ((0 <= row < size g /\ 0 <= col < size g) ->
   cell_at g row col <> Some EMPTY ->
   returned (place_stone row col) g = Ok false /\
   printed (place_stone row col) g = [occupied_message]) /\
  (returned (place_stone row col) g = Ok false ->
   (printed (place_stone row col) g = [off_board_message] <->
    ~ (0 <= row < size g /\ 0 <= col < size g)) /\
   (printed (place_stone row col) g = [occupied_message] <->
    (0 <= row < size g /\ 0 <= col < size g) /\
    cell_at g row col <> Some EMPTY)) /\
  off_board_message <> occupied_message.
Proof.
  intros Hwf.
  assert (Hdiff : off_board_message <> occupied_message) by discriminate.
  unfold returned, printed.
  destruct (place_stone_cases g row col Hwf)
    as [[Hon E] | [(cell & Hat & Hne & E) | (stone & Hat & _ & E)]];
    rewrite E; cbn [fst snd].
  - apply on_board_false in Hon.
    split; [auto|]. split; [intros Hin; contradiction|].
    split; [|exact Hdiff]. intros _. split; [tauto|].
    split; [intros H; congruence | tauto].
  - pose proof (cell_at_on_board _ _ _ _ Hat) as Hon.
    apply on_board_spec in Hon.
    assert (Hfull : cell_at g row col <> Some EMPTY) by (rewrite Hat; congruence).
    split; [intros Hout; contradiction|]. split; [auto|].
    split; [|exact Hdiff]. intros _. split; [|tauto].
    split; [intros H; congruence | tauto].
  - pose proof (cell_at_on_board _ _ _ _ Hat) as Hon.
    apply on_board_spec in Hon.
    split; [intros Hout; contradiction|].
    split; [intros _ Hfull; contradiction|].
    split; [discriminate | exact Hdiff].
Qed.

Lemma place_stone_reports_by_printing_witness :
  (returned (place_stone (-1) 0) corner_stone = Ok false /\
   printed (place_stone (-1) 0) corner_stone = [off_board_message]) /\
  (returned (place_stone 0 0) corner_stone = Ok false /\
   printed (place_stone 0 0) corner_stone = [occupied_message]).
Proof.
  assert (Hwf : wf corner_stone) by wf_by_evaluation.
  split.
  - apply (place_stone_reports_by_printing corner_stone (-1) 0 Hwf).
    vm_compute. intuition discriminate.
  - apply (place_stone_reports_by_printing corner_stone 0 0 Hwf).
    + vm_compute. intuition discriminate.
    + vm_compute. discriminate.
Defined.

(** ** [check_winner] away from the placed stone *)

(** C9, as stated, fails in its last part: from (-1, 0), which is off
    the board, the axis (1,0) steps onto the black stone in the corner
    and counts two. *)
Lemma off_board_count_counterexample :
  on_board corner_stone (-1) 0 = false /\
  PLAYER_STONES !! current_player corner_stone = Some "X" /\
  count 16 "X" (-1) 0 1 0 corner_stone = (Ok 2, corner_stone, []).
Proof. vm_compute. repeat split; reflexivity. Qed.

(** C9, amended.  For any integers [row] and [col], on the board or off
    it, [check_winner] returns a result and no read of the board raises;
    every axis count is the total of the axis, where only cells on the
    board are counted, and is at least one; it is exactly one when the two
    cells next to [(row, col)] on that axis are off the board or do not
    hold the stone, and so on every axis when [row] or [col] is less
    than [-1] or greater than [size]. *)
Theorem check_winner_anywhere g fuel row col stone :
  wf g -> (Z.to_nat (size g) < fuel)%nat ->
  (exists mr, check_winner fuel row col g = (Ok mr, g, [])) /\
  (forall d, d ∈ directions ->
     exists n, count fuel stone row col (fst d) (snd d) g = (Ok n, g, []) /\
               axis_total g stone row col d n /\ 1 <= n) /\
  (forall d, d ∈ directions ->
     cell_at g (row + fst d) (col + snd d) <> Some stone ->
     cell_at g (row - fst d) (col - snd d) <> Some stone ->
     count fuel stone row col (fst d) (snd d) g = (Ok 1, g, [])) /\
  (row < -1 \/ size g < row \/ col < -1 \/ size g < col ->
   forall d, d ∈ directions ->
     count fuel stone row col (fst d) (snd d) g = (Ok 1, g, [])).
Proof.
  intros Hwf Hfuel. split; [|split; [|split]].
  - destruct (wf_stone g Hwf) as (own & Hown & _).
    destruct (check_winner_total g own row col fuel Hwf Hfuel Hown)
      as [[_ Heq] | [_ Heq]]; eauto.
  - intros d Hd.
    destruct (count_total g stone row col (fst d) (snd d) fuel Hwf
                (directions_unit_step _ Hd) Hfuel)
      as (n & Htot & Hcount).
    exists n. split; [exact Hcount|]. split; [destruct d; exact Htot|].
    destruct Htot as (kp & kn & (Hp & _) & (Hn & _) & ->). lia.
  - intros d Hd Hfore Hback.
    apply count_one; auto using directions_unit_step.
  - intros Hfar d Hd.
    pose proof (directions_unit_step _ Hd) as Hstep.
    assert (Hoff : forall r c,
      (r = row + fst d /\ c = col + snd d) \/
      (r = row - fst d /\ c = col - snd d) ->
      cell_at g r c <> Some stone).
    { intros r c Hrc. unfold cell_at.
      destruct (on_board g r c) eqn:Hon; [|discriminate].
      apply on_board_spec in Hon. destruct Hstep as (Ha & Hb & _). lia. }
    apply count_one; auto.
Qed.

Lemma check_winner_anywhere_witness :
  (exists mr,
     check_winner 16 (-1) 0 corner_stone = (Ok mr, corner_stone, [])) /\
  count 16 "X" (-1) 0 0 1 corner_stone = (Ok 1, corner_stone, []) /\
  count 16 "X" (-2) 0 1 0 corner_stone = (Ok 1, corner_stone, []).
Proof.
  assert (Hwf : wf corner_stone) by wf_by_evaluation.
  assert (Hfuel : (Z.to_nat (size corner_stone) < 16)%nat) by (vm_compute; lia).
  pose proof (check_winner_anywhere corner_stone 16 (-1) 0 "X" Hwf Hfuel)
    as [Hreturns [_ [Hone _]]].
  pose proof (check_winner_anywhere corner_stone 16 (-2) 0 "X" Hwf Hfuel)
    as [_ [_ [_ Hfar]]].
  split; [exact Hreturns|]. split.
  - apply (Hone (0, 1)).
    + in_directions.
    + vm_compute. discriminate.
    + vm_compute. discriminate.
  - apply (Hfar ltac:(lia) (1, 0)). in_directions.
Defined.

(** C10. [check_winner] does not read the cell at [(row, col)]: its
    result is the same whatever that cell holds.  So with four stones of
    the player to move next to it on an axis it returns the win when the
    cell is [EMPTY] and when it holds a stone of the other player. *)
Theorem check_winner_ignores_own_cell :
  (forall g fuel row col v,
     wf g -> (Z.to_nat (size g) < fuel)%nat -> on_board g row col = true ->
     returned (check_winner fuel row col) (set_cell g row col v)
     = returned (check_winner fuel row col) g) /\
  (current_player four_beside_empty = "black" /\
   cell_at four_beside_empty 7 0 = Some EMPTY /\
   (forall c, 1 <= c <= 4 -> cell_at four_beside_empty 7 c = Some "X") /\
   check_winner 16 7 0 four_beside_empty
   = (Ok (mkMoveResult (Some "black") false), four_beside_empty, [])) /\
  (current_player four_beside_white = "black" /\
   cell_at four_beside_white 7 0 = Some "O" /\
   (forall c, 1 <= c <= 4 -> cell_at four_beside_white 7 c = Some "X") /\
   check_winner 16 7 0 four_beside_white
   = (Ok (mkMoveResult (Some "black") false), four_beside_white, [])).
Proof.
  split; [|split].
  - intros g fuel row col v Hwf Hfuel Hon.
    pose proof (set_cell_wf g row col v Hwf) as Hwf'.
    destruct (wf_stone g Hwf) as (stone & Hstone & _).
    assert (Hsame : forall d n, d ∈ directions ->
      axis_total (set_cell g row col v) stone row col d n
      <-> axis_total g stone row col d n).
    { intros d n Hd. apply axis_total_set_cell; auto using directions_unit_step. }
    unfold returned.
    destruct (check_winner_total g stone row col fuel Hwf Hfuel Hstone)
      as [[(d & n & Hd & Htot & Hn) Heq] | [Hnone Heq]];
    destruct (check_winner_total (set_cell g row col v) stone row col fuel
                Hwf' Hfuel Hstone)
      as [[(d' & n' & Hd' & Htot' & Hn') Heq'] | [Hnone' Heq']];
    rewrite Heq, Heq'; cbn [fst].
    + reflexivity.
    + apply Hsame in Htot; [|exact Hd]. specialize (Hnone' d n Hd Htot). lia.
    + apply Hsame in Htot'; [|exact Hd']. specialize (Hnone d' n' Hd' Htot'). lia.
    + reflexivity.
  - split; [vm_compute; reflexivity|]. split; [vm_compute; reflexivity|].
    split; [|vm_compute; reflexivity].
    intros c Hc.
    assert (c = 1 \/ c = 2 \/ c = 3 \/ c = 4) as [-> | [-> | [-> | ->]]]
      by lia; vm_compute; reflexivity.
  - split; [vm_compute; reflexivity|]. split; [vm_compute; reflexivity|].
    split; [|vm_compute; reflexivity].
    intros c Hc.
    assert (c = 1 \/ c = 2 \/ c = 3 \/ c = 4) as [-> | [-> | [-> | ->]]]
      by lia; vm_compute; reflexivity.
Qed.

Lemma check_winner_ignores_own_cell_witness :
  returned (check_winner 16 7 0) (set_cell four_beside_empty 7 0 "X")
  = returned (check_winner 16 7 0) four_beside_empty.
Proof.
  apply (proj1 check_winner_ignores_own_cell four_beside_empty 16%nat 7 0 "X").
  - wf_by_evaluation.
  - vm_compute. lia.
  - vm_compute. reflexivity.
Defined.



(** * Further properties *)

(** ** Stones stay where they are *)

Lemma after_keeps_cell g c r c0 s :
  wf g -> cell_at g r c0 = Some s -> s <> EMPTY ->
  cell_at (after c g) r c0 = Some s.
Proof.
  intros Hwf Hs Hne. destruct c as [row col | fuel row col | |]; cbn [after].
  - destruct (place_stone_cases g row col Hwf)
      as [[_ E] | [(cell & _ & _ & E) | (stone & Hat & _ & E)]];
      unfold self_after; rewrite E; cbn [fst snd]; [exact Hs | exact Hs |].
    rewrite board_with_lookup
      by (try assumption; eapply cell_at_on_board; eassumption).
    rewrite decide_False; [exact Hs|].
    intros [-> ->]. congruence.
  - rewrite check_winner_self. exact Hs.
  - rewrite switch_player_self. rewrite <- Hs. apply cell_at_ext; reflexivity.
  - rewrite print_board_self. exact Hs.
Qed.

Lemma after_all_wf cs : forall g, wf g -> wf (after_all cs g).
Proof.
  induction cs as [|c cs IH]; intros g Hwf; cbn [after_all]; [exact Hwf|].
  apply IH, after_wf, Hwf.
Qed.

Lemma after_all_keeps cs :
  forall g r c0 s,
    wf g -> cell_at g r c0 = Some s -> s <> EMPTY ->
    cell_at (after_all cs g) r c0 = Some s.
Proof.
  induction cs as [|c cs IH]; intros g r c0 s Hwf Hs Hne; cbn [after_all].
  - exact Hs.
  - apply IH; [apply after_wf, Hwf | | exact Hne].
    apply after_keeps_cell; assumption.
Qed.

(** X1. No call of [place_stone], [check_winner], [switch_player] or
    [print_board] on a well-formed object removes or replaces a stone,
    resizes the board, or takes [moves_played] down; it goes up by one
    at most. *)
Theorem calls_keep_stones g c :
  wf g ->
  size (after c g) = size g /\
  moves_played g <= moves_played (after c g) <= moves_played g + 1 /\
  forall r c0 s,
    cell_at g r c0 = Some s -> s <> EMPTY -> cell_at (after c g) r c0 = Some s.
Proof.
  intros Hwf. split; [|split].
  - destruct c as [row col | fuel row col | |]; cbn [after].
    + destruct (place_stone_cases g row col Hwf)
        as [[_ E] | [(cell & _ & _ & E) | (stone & _ & _ & E)]];
        unfold self_after; rewrite E; reflexivity.
    + rewrite check_winner_self. reflexivity.
    + reflexivity.
    + rewrite print_board_self. reflexivity.
  - destruct c as [row col | fuel row col | |]; cbn [after].
    + destruct (place_stone_cases g row col Hwf)
        as [[_ E] | [(cell & _ & _ & E) | (stone & _ & _ & E)]];
        unfold self_after; rewrite E; cbn [fst snd moves_played]; lia.
    + rewrite check_winner_self. lia.
    + rewrite switch_player_self. cbn [moves_played]. lia.
    + rewrite print_board_self. lia.
  - intros r c0 s. apply after_keeps_cell. exact Hwf.
Qed.

Lemma calls_keep_stones_witness :
  cell_at (after (CallPlaceStone 0 0) corner_stone) 0 0 = Some "X".
Proof.
  apply (calls_keep_stones corner_stone (CallPlaceStone 0 0)).
  - wf_by_evaluation.
  - vm_compute. reflexivity.
  - discriminate.
Defined.

(** X2. Once [place_stone] has put a stone on a cell, [place_stone] at
    that cell is refused as occupied, by whichever player and after any
    further calls, and leaves the object as it is. *)
Theorem placed_cell_stays_taken g row col cs :
  wf g -> returned (place_stone row col) g = Ok true ->
  let g' := after_all cs (self_after (place_stone row col) g) in
  place_stone row col g' = (Ok false, g', [occupied_message]).
Proof.
  intros Hwf Hok g'. subst g'. revert Hok. unfold returned, self_after.
  destruct (place_stone_cases g row col Hwf)
    as [[_ E] | [(cell & _ & _ & E) | (stone & Hat & Hstone & E)]];
    rewrite E; cbn [fst snd]; try discriminate.
  intros _.
  pose proof (board_with_wf g row col stone Hwf) as Hwf1.
  pose proof (cell_at_on_board _ _ _ _ Hat) as Hon.
  pose proof (stone_not_empty _ _ Hstone) as Hne.
  apply (place_stone_occupied _ row col stone);
    [apply after_all_wf; exact Hwf1 | | exact Hne].
  apply after_all_keeps; [exact Hwf1 | | exact Hne].
  rewrite board_with_lookup by assumption. apply decide_True. auto.
Qed.

Lemma placed_cell_stays_taken_witness :
  let g' := after_all [CallSwitchPlayer; CallPlaceStone 3 3; CallSwitchPlayer]
              (self_after (place_stone 7 7) corner_stone) in
  place_stone 7 7 g' = (Ok false, g', [occupied_message]).
Proof.
  apply (placed_cell_stays_taken corner_stone 7 7).
  - wf_by_evaluation.
  - vm_compute. reflexivity.
Defined.

(** ** The marks on the board *)

Lemma mark_of_stone p stone :
  PLAYER_STONES !! p = Some stone -> is_mark stone.
Proof.
  unfold PLAYER_STONES, is_mark. intros H.
  apply lookup_insert_Some in H as [[_ <-] | [_ H]]; [auto|].
  apply lookup_insert_Some in H as [[_ <-] | [_ H]]; [auto|].
  rewrite lookup_empty in H. discriminate.
Qed.

Lemma after_cells_marked g c : wf g -> cells_marked g -> cells_marked (after c g).
Proof.
  intros Hwf Hmarks. destruct c as [row col | fuel row col | |]; cbn [after].
  - destruct (place_stone_cases g row col Hwf)
      as [[_ E] | [(cell & _ & _ & E) | (stone & Hat & Hstone & E)]];
      unfold self_after; rewrite E; cbn [fst snd]; [exact Hmarks..|].
    unfold cells_marked, board_with in *. cbn [board].
    destruct (board g !! Z.to_nat row) as [line|] eqn:Hline; [|exact Hmarks].
    apply Forall_insert; [exact Hmarks|].
    apply Forall_insert; [|eapply mark_of_stone; eassumption].
    rewrite Forall_lookup in Hmarks. exact (Hmarks _ _ Hline).
  - rewrite check_winner_self. exact Hmarks.
  - exact Hmarks.
  - rewrite print_board_self. exact Hmarks.
Qed.

Lemma reachable_cells_marked g : reachable g -> cells_marked g.
Proof.
  induction 1 as [n | g c Hreach IH].
  - unfold cells_marked. cbn. unfold create_board.
    apply Forall_replicate, Forall_replicate. left. reflexivity.
  - apply after_cells_marked; [apply reachable_wf; exact Hreach | exact IH].
Qed.

(** X3. In every object a game reaches, every cell of the board holds
    ".", "X" or "O", and the player to move is "black" or "white". *)
Theorem cells_hold_marks g :
  reachable g ->
  (current_player g = "black" \/ current_player g = "white") /\
  forall r c cell,
    cell_at g r c = Some cell -> cell = "." \/ cell = "X" \/ cell = "O".
Proof.
  intros Hreach. split; [apply reachable_wf; exact Hreach|].
  intros r c cell Hat.
  pose proof (reachable_cells_marked g Hreach) as Hmarks.
  unfold cell_at in Hat. destruct (on_board g r c); [|discriminate].
  destruct (board g !! Z.to_nat r) as [line|] eqn:Hline; [|discriminate].
  unfold cells_marked in Hmarks. rewrite Forall_lookup in Hmarks.
  specialize (Hmarks _ _ Hline). rewrite Forall_lookup in Hmarks.
  exact (Hmarks _ _ Hat).
Qed.

Lemma cells_hold_marks_witness :
  (current_player corner_stone = "black" \/
   current_player corner_stone = "white") /\
  ("X" = "." \/ "X" = "X" \/ "X" = "O").
Proof.
  assert (Hreach : reachable corner_stone)
    by exact (reachable_call _ (CallPlaceStone 0 0) (reachable_new BOARD_SIZE)).
  split.
  - apply (cells_hold_marks corner_stone Hreach).
  - apply (proj2 (cells_hold_marks corner_stone Hreach) 0 0 "X").
    vm_compute. reflexivity.
Defined.

(** ** A win is five in a row *)

(** X4. After a stone of the player to move has been placed at
    [(row, col)], [check_winner] returns the win exactly when five cells
    in a row on a row, a column or a diagonal, the placed one among
    them, hold that player's stone; otherwise it names no winner. *)
Theorem win_is_five_in_row g fuel row col stone :
  wf g -> (Z.to_nat (size g) < fuel)%nat ->
  PLAYER_STONES !! current_player g = Some stone ->
  cell_at g row col = Some stone ->
  exists mr,
    check_winner fuel row col g = (Ok mr, g, []) /\
    (five_in_row g stone row col -> mr = win g) /\
    (~ five_in_row g stone row col -> winner mr = None).
Proof.
  intros Hwf Hfuel Hstone Hplaced.
  destruct (check_winner_total g stone row col fuel Hwf Hfuel Hstone)
    as [[(d & n & Hd & Htot & Hn) Heq] | [Hnone Heq]].
  - exists (win g). split; [exact Heq|]. split; [reflexivity|].
    intros Hno. exfalso. apply Hno.
    destruct (proj1 (total_five_iff g stone row col d n Hplaced Htot) Hn)
      as (s & Hs & Hwindow).
    exists d, s. auto.
  - exists (no_line_result g). split; [exact Heq|]. split.
    + intros (d & s & Hd & Hs & Hwindow). exfalso.
      destruct (count_total g stone row col (fst d) (snd d) fuel Hwf
                  (directions_unit_step _ Hd) Hfuel) as (n & Htot & _).
      assert (Htot' : axis_total g stone row col d n) by (destruct d; exact Htot).
      assert (5 <= n).
      { apply (total_five_iff g stone row col d n Hplaced Htot'). eauto. }
      specialize (Hnone d n Hd Htot'). lia.
    + intros _. unfold no_line_result, MoveResult_default.
      case_match; reflexivity.
Qed.

Lemma win_is_five_in_row_witness :
  exists mr,
    check_winner 16 4 0 crossing_lines = (Ok mr, crossing_lines, []) /\
    (five_in_row crossing_lines "X" 4 0 -> mr = win crossing_lines) /\
    (~ five_in_row crossing_lines "X" 4 0 -> winner mr = None).
Proof.
  apply (win_is_five_in_row crossing_lines 16 4 0 "X").
  - wf_by_evaluation.
  - vm_compute. lia.
  - vm_compute. reflexivity.
  - vm_compute. reflexivity.
Defined.

(** ** A draw is a full board *)

Lemma occupied_in_bounds line :
  0 <= occupied_in line <= Z.of_nat (length line) /\
  (occupied_in line = Z.of_nat (length line) <->
   Forall (fun cell => cell <> EMPTY) line).
Proof.
  induction line as [|cell line [IHle IHfull]].
  - change (occupied_in []) with 0. cbn [length].
    split; [lia|]. split; [constructor | reflexivity].
  - rewrite occupied_in_cons. cbn [length]. rewrite Forall_cons.
    destruct (decide (cell <> EMPTY)) as [Hne | Heq]; split; try lia.
    + rewrite <- IHfull.
      split; [intros; split; [exact Hne | lia] | intros [_ Hrest]; lia].
    + split; [lia | tauto].
Qed.

Lemma occupied_bounds b n :
  Forall (fun line => length line = n) b ->
  0 <= occupied b <= Z.of_nat (length b) * Z.of_nat n /\
  (occupied b = Z.of_nat (length b) * Z.of_nat n <->
   Forall (Forall (fun cell => cell <> EMPTY)) b).
Proof.
  induction b as [|line b IH]; intros Hlen.
  - change (occupied []) with 0. cbn [length].
    split; [lia|]. split; [constructor | reflexivity].
  - apply Forall_cons in Hlen as [Hline Hb].
    destruct (IH Hb) as [IHle IHfull].
    destruct (occupied_in_bounds line) as [Hle Hfull].
    rewrite occupied_cons, Forall_cons, <- IHfull, <- Hfull, Hline.
    cbn [length]. split; lia.
Qed.

Lemma full_board g :
  wf g -> full g <-> Forall (Forall (fun cell => cell <> EMPTY)) (board g).
Proof.
  intros [_ Hrows Hcols]. split.
  - intros Hfull. apply Forall_lookup. intros i line Hline.
    apply Forall_lookup. intros j cell Hcell Hempty. subst cell.
    apply (Hfull (Z.of_nat i) (Z.of_nat j)).
    pose proof (lookup_lt_Some _ _ _ Hline) as Hi.
    pose proof (lookup_lt_Some _ _ _ Hcell) as Hj.
    rewrite Forall_lookup in Hcols. rewrite (Hcols _ _ Hline) in Hj.
    unfold cell_at.
    rewrite (proj2 (on_board_spec g (Z.of_nat i) (Z.of_nat j))) by lia.
    rewrite !Nat2Z.id, Hline. exact Hcell.
  - intros Hall r c Hat. unfold cell_at in Hat.
    destruct (on_board g r c); [|discriminate].
    destruct (board g !! Z.to_nat r) as [line|] eqn:Hline; [|discriminate].
    rewrite Forall_lookup in Hall. specialize (Hall _ _ Hline).
    rewrite Forall_lookup in Hall. exact (Hall _ _ Hat eq_refl).
Qed.

Lemma counter_full g :
  wf g -> counter_agrees g ->
  moves_played g = size g * size g <-> 0 <= size g /\ full g.
Proof.
  intros Hwf Hcount. rewrite (full_board g Hwf).
  destruct Hwf as [_ Hrows Hcols].
  destruct (occupied_bounds _ _ Hcols) as [Hle Hfull].
  rewrite <- Hfull, Hrows. unfold counter_agrees in Hcount. rewrite Hcount.
  destruct (Z_le_gt_dec 0 (size g)) as [Hpos | Hneg].
  - rewrite Z2Nat.id by exact Hpos. tauto.
  - rewrite Hrows in Hle. replace (Z.to_nat (size g)) with 0%nat in Hle by lia.
    split; [nia | lia].
Qed.

Lemma reachable_counter_agrees g : reachable g -> counter_agrees g.
Proof.
  induction 1 as [n | g c Hreach IH].
  - unfold counter_agrees. cbn [__init__ moves_played board].
    rewrite occupied_create_board. reflexivity.
  - apply after_counter_agrees; [apply reachable_wf; exact Hreach | exact IH].
Qed.

(** X5. In an object a game reaches, [check_winner] reports a draw only
    when no cell of the board is [EMPTY], and then it names no winner;
    and on a board without an [EMPTY] cell (of a size that is not
    negative) it reports a win or a draw, never that the game goes on. *)
Theorem draw_is_full_board g fuel row col :
  reachable g -> (Z.to_nat (size g) < fuel)%nat ->
  exists mr,
    check_winner fuel row col g = (Ok mr, g, []) /\
    (draw mr = true -> full g /\ winner mr = None) /\
    (full g -> 0 <= size g -> mr <> MoveResult_default).
Proof.
  intros Hreach Hfuel.
  pose proof (reachable_wf g Hreach) as Hwf.
  pose proof (counter_full g Hwf (reachable_counter_agrees g Hreach)) as Hfull.
  destruct (wf_stone g Hwf) as (stone & Hstone & _).
  destruct (check_winner_total g stone row col fuel Hwf Hfuel Hstone)
    as [[_ Heq] | [_ Heq]].
  - exists (win g). split; [exact Heq|]. split; [discriminate|].
    intros _ _. discriminate.
  - exists (no_line_result g). split; [exact Heq|].
    unfold no_line_result, MoveResult_default.
    destruct (Z.eqb_spec (moves_played g) (size g * size g)) as [Hmoves | Hmoves].
    + split; [|discriminate]. intros _. split; [tauto | reflexivity].
    + split; [discriminate|]. intros Hno Hsize. tauto.
Qed.

Lemma draw_is_full_board_witness :
  check_winner 4 2 2 filled_board
  = (Ok (mkMoveResult None true), filled_board, []) /\
  full filled_board /\
  moves_played filled_board = 9.
Proof.
  assert (Hreach : forall cs g, reachable g -> reachable (after_all cs g)).
  { induction cs as [|c cs IH]; intros g Hg; cbn [after_all]; [exact Hg|].
    apply IH, reachable_call, Hg. }
  destruct (draw_is_full_board filled_board 4 2 2) as (mr & Heq & Hdraw & _).
  - apply Hreach, reachable_new.
  - vm_compute. lia.
  - assert (Hmr : returned (check_winner 4 2 2) filled_board
                  = Ok (mkMoveResult None true)) by (vm_compute; reflexivity).
    unfold returned in Hmr. rewrite Heq in Hmr. cbn [fst] in Hmr.
    injection Hmr as ->.
    split; [exact Heq|]. split; [apply Hdraw; reflexivity|].
    vm_compute. reflexivity.
Defined.

(** ** Counting the stones of each player *)

Lemma stones_in_cons s cell line :
  stones_in s (cell :: line)
  = (if decide (cell = s) then 1 else 0) + stones_in s line.
Proof.
  unfold stones_in. rewrite filter_cons.
  destruct (decide (cell = s)); cbn [length]; lia.
Qed.

Lemma stones_cons s line b : stones s (line :: b) = stones_in s line + stones s b.
Proof. reflexivity. Qed.

Lemma stones_in_insert s line c stone :
  line !! c = Some EMPTY -> s <> EMPTY ->
  stones_in s (<[c := stone]> line)
  = stones_in s line + (if decide (stone = s) then 1 else 0).
Proof.
  revert c. induction line as [|cell line IH]; intros c Hc Hne.
  - discriminate.
  - destruct c as [|c]; cbn in Hc.
    + injection Hc as ->.
      change (<[0%nat := stone]> (EMPTY :: line)) with (stone :: line).
      rewrite !stones_in_cons.
      rewrite (decide_False (P := EMPTY = s)) by congruence. lia.
    + change (<[S c := stone]> (cell :: line))
        with (cell :: <[c := stone]> line).
      rewrite !stones_in_cons. rewrite (IH c Hc Hne). lia.
Qed.

Lemma stones_insert s b r line line' :
  b !! r = Some line ->
  stones s (<[r := line']> b) = stones s b - stones_in s line + stones_in s line'.
Proof.
  revert r. induction b as [|l b IH]; intros r Hr.
  - discriminate.
  - destruct r as [|r]; cbn in Hr.
    + injection Hr as ->.
      change (<[0%nat := line']> (line :: b)) with (line' :: b).
      rewrite !stones_cons. lia.
    + change (<[S r := line']> (l :: b)) with (l :: <[r := line']> b).
      rewrite !stones_cons. rewrite (IH r Hr). lia.
Qed.

Lemma stones_create_board s n : s <> EMPTY -> stones s (create_board n) = 0.
Proof.
  intros Hne. unfold create_board.
  assert (Hline : forall m, stones_in s (replicate m EMPTY) = 0).
  { induction m as [|m IHm]; [reflexivity|].
    cbn [replicate]. rewrite stones_in_cons, IHm.
    rewrite decide_False by congruence. lia. }
  generalize (Z.to_nat n) at 1. intros k.
  induction k as [|k IHk]; [reflexivity|].
  cbn [replicate]. rewrite stones_cons, IHk, Hline. lia.
Qed.

Lemma stones_board_with s g row col stone :
  wf g -> cell_at g row col = Some EMPTY -> s <> EMPTY ->
  stones s (board_with (board g) row col stone)
  = stones s (board g) + (if decide (stone = s) then 1 else 0).
Proof.
  intros Hwf Hat Hne.
  pose proof (cell_at_on_board _ _ _ _ Hat) as Hon.
  destruct (wf_cell g row col Hwf Hon) as (line & cell & Hline & Hcell & _ & Hat').
  assert (cell = EMPTY) as -> by congruence.
  unfold board_with. rewrite Hline.
  rewrite (stones_insert _ _ _ line) by exact Hline.
  rewrite (stones_in_insert _ _ _ _ Hcell Hne). lia.
Qed.

Lemma stone_of_player p stone :
  PLAYER_STONES !! p = Some stone ->
  (p = "black" /\ stone = "X") \/ (p = "white" /\ stone = "O").
Proof.
  unfold PLAYER_STONES. intros H.
  apply lookup_insert_Some in H as [[<- <-] | [_ H]]; [auto|].
  apply lookup_insert_Some in H as [[<- <-] | [_ H]]; [auto|].
  rewrite lookup_empty in H. discriminate.
Qed.

(** X6. In every object a game reaches, [moves_played] is the number of
    "X" cells plus the number of "O" cells, and a placement that is
    accepted adds one cell of the stone of the player to move and none
    of the other. *)
Theorem moves_are_stones g :
  reachable g ->
  moves_played g = stones "X" (board g) + stones "O" (board g) /\
  forall row col,
    returned (place_stone row col) g = Ok true ->
    let g' := self_after (place_stone row col) g in
    (current_player g = "black" ->
     stones "X" (board g') = stones "X" (board g) + 1 /\
     stones "O" (board g') = stones "O" (board g)) /\
    (current_player g = "white" ->
     stones "O" (board g') = stones "O" (board g) + 1 /\
     stones "X" (board g') = stones "X" (board g)).
Proof.
  intros Hreach. split.
  - induction Hreach as [n | g c Hreach IH].
    + cbn [__init__ moves_played board].
      rewrite !stones_create_board by discriminate. reflexivity.
    + pose proof (reachable_wf g Hreach) as Hwf.
      destruct c as [row col | fuel row col | |]; cbn [after].
      * destruct (place_stone_cases g row col Hwf)
          as [[_ E] | [(cell & _ & _ & E) | (stone & Hat & Hstone & E)]];
          unfold self_after; rewrite E; cbn [fst snd]; [exact IH..|].
        cbn [moves_played board].
        rewrite !(stones_board_with _ g row col stone Hwf Hat) by discriminate.
        destruct (stone_of_player _ _ Hstone) as [[_ ->] | [_ ->]];
          repeat first [rewrite decide_True by reflexivity
                       | rewrite decide_False by discriminate]; lia.
      * rewrite check_winner_self. exact IH.
      * exact IH.
      * rewrite print_board_self. exact IH.
  - intros row col Hok g'. subst g'. revert Hok.
    pose proof (reachable_wf g Hreach) as Hwf.
    unfold returned, self_after.
    destruct (place_stone_cases g row col Hwf)
      as [[_ E] | [(cell & _ & _ & E) | (stone & Hat & Hstone & E)]];
      rewrite E; cbn [fst snd board]; try discriminate.
    intros _.
    rewrite !(stones_board_with _ g row col stone Hwf Hat) by discriminate.
    destruct (stone_of_player _ _ Hstone) as [[Hp ->] | [Hp ->]];
      rewrite Hp; split; intros Hq; try discriminate Hq;
      repeat first [rewrite decide_True by reflexivity
                   | rewrite decide_False by discriminate]; lia.
Qed.

Lemma moves_are_stones_witness :
  moves_played corner_stone
  = stones "X" (board corner_stone) + stones "O" (board corner_stone).
Proof.
  apply (moves_are_stones corner_stone).
  exact (reachable_call _ (CallPlaceStone 0 0) (reachable_new BOARD_SIZE)).
Defined.

(** ** What [print_board] prints *)

Lemma for_each_print {A} (body : A -> unit -> M unit) (f : A -> string) g :
  (forall x acc, body x acc = print (f x)) ->
  forall xs, for_each xs body tt g = (Ok tt, g, map f xs).
Proof.
  intros Hbody. induction xs as [|x xs IH]; cbn [for_each map]; [reflexivity|].
  unfold bind. rewrite Hbody. cbn [print]. unfold print. rewrite IH.
  reflexivity.
Qed.

Lemma print_board_rendering g : print_board g = (Ok tt, g, rendering g).
Proof.
  unfold print_board. rewrite (bind_ok _ _ g g g) by reflexivity.
  unfold bind at 1. cbn [print]. unfold print at 1.
  rewrite (for_each_print _ row_line).
  - reflexivity.
  - intros [idx row] acc. reflexivity.
Qed.

Lemma mark_one_character cell :
  is_mark cell -> exists a, cell = String a EmptyString.
Proof. intros [-> | [-> | ->]]; eexists; reflexivity. Qed.

Lemma concat_cons_cons sep x y l :
  String.concat sep (x :: y :: l) = x +:+ sep +:+ String.concat sep (y :: l).
Proof. reflexivity. Qed.

(** A row can be read back from its cells joined by spaces. *)
Lemma concat_marks_inj row1 :
  forall row2,
    Forall is_mark row1 -> Forall is_mark row2 ->
    String.concat " " row1 = String.concat " " row2 -> row1 = row2.
Proof.
  induction row1 as [|x l1 IH]; intros [|y l2] H1 H2 Heq.
  - reflexivity.
  - apply Forall_cons in H2 as [Hy _].
    destruct (mark_one_character y Hy) as [b ->].
    destruct l2; [|rewrite concat_cons_cons in Heq]; discriminate Heq.
  - apply Forall_cons in H1 as [Hx _].
    destruct (mark_one_character x Hx) as [a ->].
    destruct l1; [|rewrite concat_cons_cons in Heq]; discriminate Heq.
  - apply Forall_cons in H1 as [Hx H1]. apply Forall_cons in H2 as [Hy H2].
    destruct (mark_one_character x Hx) as [a ->].
    destruct (mark_one_character y Hy) as [b ->].
    destruct l1 as [|x1 l1], l2 as [|y1 l2];
      rewrite ?concat_cons_cons in Heq.
    + f_equal. exact Heq.
    + discriminate Heq.
    + discriminate Heq.
    + injection Heq as -> Hrest. f_equal. apply IH; assumption.
Qed.

Lemma zip_seqZ_cons {A} m k (x : A) b :
  zip (seqZ m (Z.of_nat (S k))) (x :: b)
  = (m, x) :: zip (seqZ (Z.succ m) (Z.of_nat k)) b.
Proof.
  rewrite seqZ_cons by lia.
  replace (Z.pred (Z.of_nat (S k))) with (Z.of_nat k) by lia. reflexivity.
Qed.

Lemma row_lines_inj b1 :
  forall b2 m,
    Forall (Forall is_mark) b1 -> Forall (Forall is_mark) b2 ->
    map row_line (zip (seqZ m (Z.of_nat (length b1))) b1)
    = map row_line (zip (seqZ m (Z.of_nat (length b2))) b2) ->
    b1 = b2.
Proof.
  induction b1 as [|r1 b1 IH]; intros [|r2 b2] m H1 H2 Heq.
  - reflexivity.
  - cbn [length] in Heq. rewrite zip_seqZ_cons in Heq. discriminate Heq.
  - cbn [length] in Heq. rewrite zip_seqZ_cons in Heq. discriminate Heq.
  - cbn [length] in Heq. rewrite !zip_seqZ_cons in Heq. cbn [map] in Heq.
    apply Forall_cons in H1 as [Hr1 H1]. apply Forall_cons in H2 as [Hr2 H2].
    injection Heq as Hrow Hrest. f_equal.
    + unfold row_line in Hrow. cbn [fst snd] in Hrow.
      apply (inj (String.app _)) in Hrow. apply (inj (String.app _)) in Hrow.
      apply concat_marks_inj; assumption.
    + exact (IH b2 (Z.succ m) H1 H2 Hrest).
Qed.

(** X7. [print_board] never fails, changes nothing, and prints one
    line of column numbers and then one line for each row; when
    the cells are ".", "X" and "O", two boards that are printed alike
    are the same board. *)
Theorem print_board_shows_the_board g1 g2 :
  returned print_board g1 = Ok tt /\
  self_after print_board g1 = g1 /\
  length (printed print_board g1) = S (length (board g1)) /\
  (cells_marked g1 -> cells_marked g2 ->
   printed print_board g1 = printed print_board g2 ->
   board g1 = board g2).
Proof.
  unfold returned, self_after, printed. rewrite !print_board_rendering.
  cbn [fst snd]. split; [reflexivity|]. split; [reflexivity|]. split.
  - unfold rendering. cbn [length]. f_equal.
    rewrite length_map, length_zip, length_seqZ. lia.
  - intros H1 H2 Heq. unfold rendering in Heq.
    injection Heq as _ Hrows. exact (row_lines_inj _ _ 1 H1 H2 Hrows).
Qed.

Lemma print_board_shows_the_board_witness :
  board corner_stone = board (self_after switch_player corner_stone).
Proof.
  apply (print_board_shows_the_board corner_stone
           (self_after switch_player corner_stone)).
  - vm_compute.
    repeat (constructor; [repeat (constructor; [auto|]); constructor|]);
      constructor.
  - vm_compute.
    repeat (constructor; [repeat (constructor; [auto|]); constructor|]);
      constructor.
  - vm_compute. reflexivity.
Defined.

(** ** [switch_player] *)

(** X8. [switch_player] changes the player to move and nothing else;
    on a well-formed object it gives the other player, so that two calls
    give the object back; from any other value of [current_player] it
    gives "black". *)
Theorem switch_player_alternates g :
  (exists p, switch_player g
             = (Ok tt, mkGame (size g) (board g) p (moves_played g), []) /\
             (p = "black" \/ p = "white") /\
             (current_player g <> "black" -> p = "black")) /\
  (wf g ->
   current_player (self_after switch_player g) <> current_player g /\
   self_after switch_player (self_after switch_player g) = g).
Proof.
  split.
  - eexists. split; [reflexivity|].
    destruct (String.eqb_spec (current_player g) "black") as [Hb | Hb];
      split; auto; intros; congruence.
  - intros [[Hp | Hp] _ _]; rewrite !switch_player_self;
      cbn [size board current_player moves_played]; rewrite Hp;
      (split; [discriminate|]); destruct g; cbn in *; subst; reflexivity.
Qed.

Lemma switch_player_alternates_witness :
  current_player (self_after switch_player corner_stone)
  <> current_player corner_stone /\
  self_after switch_player (self_after switch_player corner_stone)
  = corner_stone.
Proof.
  apply (switch_player_alternates corner_stone). wf_by_evaluation.
Defined.

(** ** A new game *)

Lemma new_game_cell n r c :
  cell_at (__init__ n) r c
  = if on_board (__init__ n) r c then Some EMPTY else None.
Proof.
  unfold cell_at. destruct (on_board (__init__ n) r c) eqn:Hon; [|reflexivity].
  apply on_board_spec in Hon. cbn [__init__ size board] in *.
  unfold create_board.
  rewrite lookup_replicate_2 by lia. apply lookup_replicate_2. lia.
Qed.

(** X9. A new game has every cell of the board [EMPTY]; when its size
    is zero or negative it has no cell: every placement is refused as
    off the board, and [check_winner] reports a draw at once for size
    zero and an unfinished game for ever for a negative size. *)
Theorem new_game_edges n :
  (forall r c, 0 <= r < n -> 0 <= c < n ->
     cell_at (__init__ n) r c = Some EMPTY) /\
  (n <= 0 ->
   (forall r c,
      place_stone r c (__init__ n)
      = (Ok false, __init__ n, [off_board_message])) /\
   (forall fuel r c, (1 <= fuel)%nat ->
      check_winner fuel r c (__init__ n)
      = (Ok (mkMoveResult None (n =? 0)), __init__ n, []))).
Proof.
  split.
  - intros r c Hr Hc. rewrite new_game_cell.
    rewrite (proj2 (on_board_spec (__init__ n) r c)); [reflexivity|].
    cbn [__init__ size]. lia.
  - intros Hn.
    assert (Hoff : forall r c, on_board (__init__ n) r c = false).
    { intros r c. apply on_board_false. cbn [__init__ size]. lia. }
    split.
    + intros r c. apply place_stone_off_board, Hoff.
    + intros fuel r c Hfuel.
      assert (Hfuel' : (Z.to_nat (size (__init__ n)) < fuel)%nat)
        by (cbn [__init__ size]; lia).
      destruct (check_winner_total (__init__ n) "X" r c fuel (wf_init n)
                  Hfuel' eq_refl) as [[(d & k & Hd & Htot & Hk) _] | [_ Heq]].
      * exfalso.
        assert (Hone : axis_total (__init__ n) "X" r c d 1).
        { exists 0, 0. split; [|split; [|lia]]; apply streak_zero;
            rewrite new_game_cell, Hoff; discriminate. }
        pose proof (axis_total_unique _ _ _ _ _ _ _ Htot Hone). lia.
      * rewrite Heq. unfold no_line_result, MoveResult_default.
        cbn [__init__ size moves_played].
        destruct (Z.eqb_spec 0 (n * n)), (Z.eqb_spec n 0);
          try reflexivity; nia.
Qed.

Lemma new_game_edges_witness :
  cell_at (__init__ 15) 7 7 = Some EMPTY /\
  place_stone 0 0 (__init__ 0) = (Ok false, __init__ 0, [off_board_message]) /\
  check_winner 1 0 0 (__init__ (-2))
  = (Ok (mkMoveResult None false), __init__ (-2), []).
Proof.
  split; [|split].
  - apply (new_game_edges 15); lia.
  - apply (new_game_edges 0). lia.
  - apply (new_game_edges (-2)); lia.
Defined.

(** ** Facts for the loop of [run] *)

Lemma after_size g c : wf g -> size (after c g) = size g.
Proof.
  intros Hwf. destruct c as [row col | fuel row col | |]; cbn [after].
  - destruct (place_stone_cases g row col Hwf)
      as [[_ E] | [(cell & _ & _ & E) | (stone & _ & _ & E)]];
      unfold self_after; rewrite E; reflexivity.
  - rewrite check_winner_self. reflexivity.
  - reflexivity.
  - rewrite print_board_self. reflexivity.
Qed.

(** An accepted placement, as the stones on the board see it. *)
Lemma placed_stone g row col :
  wf g -> returned (place_stone row col) g = Ok true ->
  exists stone,
    PLAYER_STONES !! current_player g = Some stone /\
    cell_at (self_after (place_stone row col) g) row col = Some stone /\
    current_player (self_after (place_stone row col) g) = current_player g /\
    forall s, s <> EMPTY ->
      stones s (board (self_after (place_stone row col) g))
      = stones s (board g) + (if decide (stone = s) then 1 else 0).
Proof.
  intros Hwf. unfold returned, self_after.
  destruct (place_stone_cases g row col Hwf)
    as [[_ E] | [(cell & _ & _ & E) | (stone & Hat & Hstone & E)]];
    rewrite E; cbn [fst snd]; try discriminate.
  intros _. exists stone. split; [exact Hstone|]. split; [|split].
  - rewrite board_with_lookup
      by (try assumption; eapply cell_at_on_board; eassumption).
    apply decide_True. auto.
  - reflexivity.
  - intros s Hs. cbn [board]. apply stones_board_with; assumption.
Qed.

Lemma win_gives_five g fuel row col stone :
  wf g -> (Z.to_nat (size g) < fuel)%nat ->
  PLAYER_STONES !! current_player g = Some stone ->
  cell_at g row col = Some stone ->
  returned (check_winner fuel row col) g = Ok (win g) ->
  five_in_row g stone row col.
Proof.
  intros Hwf Hfuel Hstone Hplaced. unfold returned.
  destruct (check_winner_total g stone row col fuel Hwf Hfuel Hstone)
    as [[(d & n & Hd & Htot & Hn) Heq] | [_ Heq]]; rewrite Heq; cbn [fst].
  - intros _.
    destruct (proj1 (total_five_iff g stone row col d n Hplaced Htot) Hn)
      as (s & Hs & Hwindow).
    exists d, s. auto.
  - unfold no_line_result, MoveResult_default, win.
    case_match; discriminate.
Qed.

Lemma draw_gives_full g fuel row col :
  wf g -> counter_agrees g -> (Z.to_nat (size g) < fuel)%nat ->
  returned (check_winner fuel row col) g = Ok (mkMoveResult None true) ->
  full g.
Proof.
  intros Hwf Hcount Hfuel. unfold returned.
  destruct (wf_stone g Hwf) as (stone & Hstone & _).
  destruct (check_winner_total g stone row col fuel Hwf Hfuel Hstone)
    as [[_ Heq] | [_ Heq]]; rewrite Heq; cbn [fst]; [discriminate|].
  unfold no_line_result, MoveResult_default.
  destruct (Z.eqb_spec (moves_played g) (size g * size g)) as [Hmoves | _];
    [|discriminate].
  intros _. apply (counter_full g Hwf Hcount). exact Hmoves.
Qed.

Lemma string_length_app (s1 s2 : string) :
  String.length (s1 +:+ s2) = (String.length s1 + String.length s2)%nat.
Proof.
  induction s1 as [|a s1 IH]; [reflexivity|].
  change (String a s1 +:+ s2) with (String a (s1 +:+ s2)).
  cbn [String.length]. rewrite IH. reflexivity.
Qed.

Lemma string_app_inv_tail (s1 s2 s : string) : s1 +:+ s = s2 +:+ s -> s1 = s2.
Proof.
  revert s2. induction s1 as [|a s1 IH]; intros [|b s2] Heq.
  - reflexivity.
  - exfalso. apply (f_equal String.length) in Heq.
    rewrite !string_length_app in Heq. cbn [String.length] in Heq. lia.
  - exfalso. apply (f_equal String.length) in Heq.
    rewrite !string_length_app in Heq. cbn [String.length] in Heq. lia.
  - change (String a (s1 +:+ s) = String b (s2 +:+ s)) in Heq.
    injection Heq as -> Heq. f_equal. exact (IH _ Heq).
Qed.

Lemma win_message_inj p q : win_message p = win_message q -> p = q.
Proof.
  unfold win_message. intros Heq.
  apply (inj (String.app _)) in Heq.
  exact (string_app_inv_tail _ _ _ Heq).
Qed.

Lemma last_after {A} (pre l : list A) x :
  last l = Some x -> last (pre ++ l) = Some x.
Proof. intros Hl. rewrite last_app, Hl. reflexivity. Qed.

Lemma balanced_difference g :
  balanced g -> 0 <= stones "X" (board g) - stones "O" (board g) <= 1.
Proof. intros [[_ H] | [_ H]]; lia. Qed.

Lemma placed_difference g row col :
  wf g -> balanced g -> returned (place_stone row col) g = Ok true ->
  let g' := self_after (place_stone row col) g in
  0 <= stones "X" (board g') - stones "O" (board g') <= 1 /\
  balanced (self_after switch_player g').
Proof.
  intros Hwf Hbal Hok g'.
  destruct (placed_stone g row col Hwf Hok) as (stone & Hstone & _ & Hp & Hs).
  fold g' in Hp, Hs.
  pose proof (Hs "X" ltac:(discriminate)) as HX.
  pose proof (Hs "O" ltac:(discriminate)) as HO.
  unfold balanced. rewrite switch_player_self. cbn [board current_player].
  rewrite Hp.
  destruct (stone_of_player _ _ Hstone) as [[Hq ->] | [Hq ->]];
    destruct Hbal as [[Hb Heq] | [Hb Heq]]; try congruence;
    rewrite Hq; repeat case_decide; try discriminate; try congruence.
  - change (("black" =? "black")%string) with true. cbv iota.
    split; [lia|]. right. split; [reflexivity | lia].
  - change (("white" =? "black")%string) with false. cbv iota.
    split; [lia|]. left. split; [reflexivity | lia].
Qed.

(** ** The loop of [run] *)

Section RunProperties.

Variables (str_strip str_lower : string -> string).
Variable str_split : string -> list string.
Variable int : string -> option Z.

Abbreviation body := (run_body str_strip str_lower str_split int).
Abbreviation loop := (run_loop str_strip str_lower str_split int).
Abbreviation quits line := (quit_word (str_lower (str_strip line))).
Abbreviation move_of line :=
  (read_move str_split int (str_lower (str_strip line))).

(** One round of the loop. *)
Lemma run_loop_unfold fuel stdin g :
  loop fuel stdin g
  = match PLAYER_STONES !! current_player g with
    | None => (Raise KeyError, g, [])
    | Some stone =>
        let prompt := prompt_line (current_player g) stone in
        match stdin with
        | [] => (Ok RunEOFError, g, [prompt])
        | line :: rest =>
            match body fuel line g with
            | (Ok Break, g1, out) => (Ok RunReturned, g1, prompt :: out)
            | (Ok Continue, g1, out) =>
                match loop fuel rest g1 with
                | (r, g2, out2) => (r, g2, prompt :: (out ++ out2)%list)
                end
            | (Raise e, g1, out) => (Raise e, g1, prompt :: out)
            end
        end
    end.
Proof.
  destruct stdin as [|line rest]; cbn [run_loop];
    unfold bind, get_self, dict_getitem, input_prompt, ret, raise;
    destruct (PLAYER_STONES !! current_player g) as [stone|];
    cbv beta iota zeta; try reflexivity.
  destruct (body fuel line g) as [[[[|] | e] g1] out]; cbv beta iota.
  - cbn [app]. rewrite app_nil_r. reflexivity.
  - destruct (loop fuel rest g1) as [[r g2] out2]. reflexivity.
  - reflexivity.
Qed.

Lemma truthy_player g :
  wf g -> truthy (Some (current_player g)) = true.
Proof. intros [[Hp | Hp] _ _]; rewrite Hp; reflexivity. Qed.

(** What one line does to a well-formed object. *)
Lemma run_body_cases g fuel line :
  wf g -> (Z.to_nat (size g) < fuel)%nat ->
  (quits line = true /\ body fuel line g = (Ok Break, g, [goodbye_message]))
  \/
  (quits line = false /\
   ((move_of line = None /\
     body fuel line g = (Ok Continue, g, [format_message])) \/
    (exists row col,
       move_of line = Some (row, col) /\
       returned (place_stone row col) g = Ok false /\
       body fuel line g = (Ok Continue, g, printed (place_stone row col) g))))
  \/
  (exists row col,
     quits line = false /\ move_of line = Some (row, col) /\
     returned (place_stone row col) g = Ok true /\
     let g1 := self_after (place_stone row col) g in
     (returned (check_winner fuel row col) g1 = Ok (win g1) /\
      body fuel line g
      = (Ok Break, g1,
         (rendering g1 ++ [win_message (current_player g1)])%list))
     \/
     (returned (check_winner fuel row col) g1 = Ok (mkMoveResult None true) /\
      body fuel line g
      = (Ok Break, g1, (rendering g1 ++ [draw_message])%list))
     \/
     (returned (check_winner fuel row col) g1 = Ok MoveResult_default /\
      body fuel line g
      = (Ok Continue, self_after switch_player g1, rendering g1))).
Proof.
  intros Hwf Hfuel. unfold run_body.
  destruct (quits line) eqn:Hquit; [left; split; reflexivity|]. right.
  destruct (move_of line) as [[row col]|] eqn:Hmove;
    [|left; split; [reflexivity|]; left; split; reflexivity].
  destruct (place_stone_cases g row col Hwf)
    as [[_ E] | [(cell & _ & _ & E) | (stone & Hat & Hstone & E)]].
  - left. split; [reflexivity|]. right. exists row, col.
    unfold returned, printed, bind. rewrite E. auto.
  - left. split; [reflexivity|]. right. exists row, col.
    unfold returned, printed, bind. rewrite E. auto.
  - right. exists row, col.
    split; [reflexivity|]. split; [reflexivity|].
    unfold returned at 1, self_after. rewrite E. cbn [fst snd].
    split; [reflexivity|].
    set (g1 := mkGame _ _ _ _) in *.
    assert (Hwf1 : wf g1) by (apply board_with_wf; exact Hwf).
    rewrite (bind_ok _ _ _ _ _ E). cbn [negb].
    unfold returned.
    destruct (check_winner_total g1 stone row col fuel Hwf1 Hfuel Hstone)
      as [[_ Heq] | [_ Heq]].
    + left. rewrite Heq. split; [reflexivity|].
      rewrite (bind_ok _ _ _ _ _ Heq). unfold bind at 1.
      rewrite print_board_rendering.
      cbn [winner win]. rewrite (truthy_player g1 Hwf1). reflexivity.
    + right. unfold no_line_result, MoveResult_default in Heq.
      destruct (moves_played g1 =? size g1 * size g1).
      * left. rewrite Heq. split; [reflexivity|].
        rewrite (bind_ok _ _ _ _ _ Heq). unfold bind at 1.
        rewrite print_board_rendering. reflexivity.
      * right. rewrite Heq. split; [reflexivity|].
        rewrite (bind_ok _ _ _ _ _ Heq). unfold bind at 1.
        rewrite print_board_rendering.
        cbn [winner draw truthy].
        unfold switch_player, bind, get_self, set_current_player, ret.
        cbn [fst snd app]. rewrite app_nil_r. reflexivity.
Qed.

Abbreviation run_ := (run str_strip str_lower str_split int).

Lemma run_unfold fuel stdin g :
  run_ fuel stdin g
  = match loop fuel stdin g with
    | (r, g', out) => (r, g', (welcome_lines ++ rendering g ++ out)%list)
    end.
Proof.
  unfold run, bind, print. rewrite print_board_rendering.
  destruct (loop fuel stdin g) as [[r g'] out]. reflexivity.
Qed.

(** How the loop ends from an object that satisfies [I], a property
    that every accepted move followed by [switch_player] keeps: the
    input ends, or a line asks to quit, or a move is accepted on which
    [check_winner] reports a win or a draw. *)
Lemma run_loop_ends (I : Game -> Prop) fuel :
  (forall g, I g -> wf g /\ (Z.to_nat (size g) < fuel)%nat) ->
  (forall g row col,
     I g -> returned (place_stone row col) g = Ok true ->
     I (self_after switch_player (self_after (place_stone row col) g))) ->
  forall stdin g,
    I g ->
    exists r g' out final,
      loop fuel stdin g = (Ok r, g', out) /\ last out = Some final /\
      ((r = RunEOFError /\ I g' /\
        exists stone, final = prompt_line (current_player g') stone)
       \/
       (r = RunReturned /\ I g' /\ final = goodbye_message)
       \/
       (r = RunReturned /\
        exists g0 row col,
          I g0 /\ returned (place_stone row col) g0 = Ok true /\
          g' = self_after (place_stone row col) g0 /\
          ((returned (check_winner fuel row col) g' = Ok (win g') /\
            final = win_message (current_player g'))
           \/
           (returned (check_winner fuel row col) g'
            = Ok (mkMoveResult None true) /\
            final = draw_message)))).
Proof.
  intros Hwf Hstep. induction stdin as [|line rest IH]; intros g HI;
    destruct (Hwf g HI) as [Hg Hfuel];
    destruct (wf_stone g Hg) as (stone & Hstone & _);
    rewrite run_loop_unfold, Hstone; cbv zeta.
  - exists RunEOFError, g, [prompt_line (current_player g) stone],
      (prompt_line (current_player g) stone).
    split; [reflexivity|]. split; [reflexivity|]. left. eauto.
  - destruct (run_body_cases g fuel line Hg Hfuel)
      as [[_ E] | [[_ Hskip] | (row & col & _ & _ & Hok & Hend)]].
    + rewrite E.
      exists RunReturned, g, [prompt_line (current_player g) stone;
                              goodbye_message], goodbye_message.
      split; [reflexivity|]. split; [reflexivity|]. right. left. auto.
    + assert (exists out, body fuel line g = (Ok Continue, g, out)) as [out E].
      { destruct Hskip as [[_ E] | (row & col & _ & _ & E)]; eauto. }
      rewrite E.
      destruct (IH g HI) as (r & g' & out2 & final & Eloop & Hlast & Hcases).
      rewrite Eloop.
      exists r, g', (prompt_line (current_player g) stone :: out ++ out2)%list,
        final.
      split; [reflexivity|]. split; [|exact Hcases].
      apply (last_after (_ :: out)). exact Hlast.
    + cbv zeta in Hend.
      destruct Hend as [[Hwin E] | [[Hdraw E] | [_ E]]]; rewrite E.
      * eexists RunReturned, _, _, _. split; [reflexivity|].
        split; [apply (last_after (_ :: rendering _)); reflexivity|].
        right. right. split; [reflexivity|].
        exists g, row, col. split; [exact HI|]. split; [exact Hok|].
        split; [reflexivity|]. left. auto.
      * eexists RunReturned, _, _, _. split; [reflexivity|].
        split; [apply (last_after (_ :: rendering _)); reflexivity|].
        right. right. split; [reflexivity|].
        exists g, row, col. split; [exact HI|]. split; [exact Hok|].
        split; [reflexivity|]. right. auto.
      * destruct (IH _ (Hstep g row col HI Hok))
          as (r & g' & out2 & final & Eloop & Hlast & Hcases).
        rewrite Eloop.
        eexists r, g', _, final.
        split; [reflexivity|]. split; [|exact Hcases].
        apply (last_after (_ :: rendering _)). exact Hlast.
Qed.

(** X10. From an object a game reaches, and with fuel for the scans of
    [check_winner], [run] raises no [IndexError] or [KeyError] whatever
    is typed: it returns, or the input runs out; and the object it
    leaves is again one a game reaches, with the board of the same
    size. *)
Theorem run_is_safe g fuel stdin :
  reachable g -> (Z.to_nat (size g) < fuel)%nat ->
  (returned (run_ fuel stdin) g = Ok RunReturned \/
   returned (run_ fuel stdin) g = Ok RunEOFError) /\
  reachable (self_after (run_ fuel stdin) g) /\
  size (self_after (run_ fuel stdin) g) = size g.
Proof.
  intros Hreach Hfuel.
  destruct (run_loop_ends (fun g' => reachable g' /\ size g' = size g) fuel)
    with (stdin := stdin) (g := g)
    as (r & g' & out & final & Eloop & _ & Hcases).
  - intros g' [Hr Hs]. split; [apply reachable_wf; exact Hr | lia].
  - intros g' row col [Hr Hs] _. split.
    + exact (reachable_call _ CallSwitchPlayer
               (reachable_call _ (CallPlaceStone row col) Hr)).
    + change (size (after CallSwitchPlayer (after (CallPlaceStone row col) g'))
              = size g).
      rewrite !after_size; [exact Hs | apply reachable_wf; exact Hr |].
      apply after_wf, reachable_wf, Hr.
  - auto.
  - unfold returned, self_after. rewrite run_unfold, Eloop. cbn [fst snd].
    destruct Hcases as [(-> & [Hr Hs] & _) | [(-> & [Hr Hs] & _) |
      (-> & g0 & row & col & [Hr Hs] & _ & -> & _)]]; (split; [auto|]).
    + auto.
    + auto.
    + split.
      * exact (reachable_call _ (CallPlaceStone row col) Hr).
      * change (size (after (CallPlaceStone row col) g0) = size g).
        rewrite after_size; [exact Hs | apply reachable_wf; exact Hr].
Qed.

(** X11. A line that does not ask to quit and that gives no move, or a
    move that [place_stone] refuses, is as if it had not been typed:
    [run] ends the same way, with the same object. *)
Theorem run_skips_refused_lines g fuel line rest :
  wf g -> (Z.to_nat (size g) < fuel)%nat ->
  quits line = false ->
  (move_of line = None \/
   exists row col,
     move_of line = Some (row, col) /\
     returned (place_stone row col) g = Ok false) ->
  returned (run_ fuel (line :: rest)) g = returned (run_ fuel rest) g /\
  self_after (run_ fuel (line :: rest)) g = self_after (run_ fuel rest) g.
Proof.
  intros Hwf Hfuel Hquit Hrefused.
  destruct (wf_stone g Hwf) as (stone & Hstone & _).
  assert (exists out, body fuel line g = (Ok Continue, g, out)) as [out E].
  { destruct (run_body_cases g fuel line Hwf Hfuel)
      as [[Hq _] | [[_ Hskip] | (row & col & _ & Hmove & Hok & _)]].
    - congruence.
    - destruct Hskip as [[_ E] | (row & col & _ & _ & E)]; eauto.
    - destruct Hrefused as [Hnone | (row' & col' & Hmove' & Hno)];
        [congruence|].
      rewrite Hmove in Hmove'. injection Hmove' as <- <-. congruence. }
  unfold returned, self_after. rewrite !run_unfold.
  rewrite (run_loop_unfold fuel (line :: rest) g), Hstone, E. cbv zeta.
  destruct (loop fuel rest g) as [[r g2] out2]. split; reflexivity.
Qed.

Lemma run_loop_reads_no_further fuel more :
  forall stdin g,
    returned (loop fuel stdin) g = Ok RunReturned ->
    loop fuel (stdin ++ more) g = loop fuel stdin g.
Proof.
  induction stdin as [|line rest IH]; intros g; unfold returned.
  - rewrite (run_loop_unfold fuel [] g).
    destruct (PLAYER_STONES !! current_player g); discriminate.
  - cbn [app].
    rewrite (run_loop_unfold fuel (line :: rest ++ more) g),
      (run_loop_unfold fuel (line :: rest) g).
    destruct (PLAYER_STONES !! current_player g) as [stone|]; [|reflexivity].
    cbv zeta.
    destruct (body fuel line g) as [[[[|] | e] g1] out]; try reflexivity.
    intros Hret.
    rewrite IH; [reflexivity|].
    unfold returned.
    destruct (loop fuel rest g1) as [[r g2] out2]. exact Hret.
Qed.

(** X12. When [run] returns, after a win, a draw or a request to quit,
    it has read the last line it will read: with any further lines
    typed after these it does the same, prints the same and leaves the
    same object. *)
Theorem run_reads_no_further g fuel stdin more :
  returned (run_ fuel stdin) g = Ok RunReturned ->
  run_ fuel (stdin ++ more) g = run_ fuel stdin g.
Proof.
  unfold returned. rewrite !run_unfold. intros Hret.
  rewrite run_loop_reads_no_further; [reflexivity|].
  unfold returned.
  destruct (loop fuel stdin g) as [[r g'] out]. exact Hret.
Qed.

(** X13. Whatever is typed, when [main] ends Black has as many stones
    on the board as White, or one more. *)
Theorem main_keeps_the_turns fuel stdin :
  (Z.to_nat BOARD_SIZE < fuel)%nat ->
  let g' := snd (fst (main str_strip str_lower str_split int fuel stdin)) in
  0 <= stones "X" (board g') - stones "O" (board g') <= 1.
Proof.
  intros Hfuel g'. subst g'. unfold main. rewrite run_unfold.
  destruct (run_loop_ends
              (fun g => reachable g /\ size g = BOARD_SIZE /\ balanced g) fuel)
    with (stdin := stdin) (g := __init__ BOARD_SIZE)
    as (r & g' & out & final & Eloop & _ & Hcases).
  - intros g (Hr & Hs & _). split; [apply reachable_wf; exact Hr|].
    rewrite Hs. exact Hfuel.
  - intros g row col (Hr & Hs & Hbal) Hok.
    pose proof (reachable_wf g Hr) as Hwf.
    split; [|split].
    + exact (reachable_call _ CallSwitchPlayer
               (reachable_call _ (CallPlaceStone row col) Hr)).
    + change (size (after CallSwitchPlayer (after (CallPlaceStone row col) g))
              = BOARD_SIZE).
      rewrite !after_size; [exact Hs | exact Hwf | apply after_wf, Hwf].
    + apply (placed_difference g row col Hwf Hbal Hok).
  - split; [apply reachable_new|]. split; [reflexivity|].
    left. split; [reflexivity|].
    cbn [__init__ board]. rewrite !stones_create_board by discriminate.
    reflexivity.
  - rewrite Eloop. cbn [fst snd].
    destruct Hcases as [(_ & (_ & _ & Hbal) & _) | [(_ & (_ & _ & Hbal) & _) |
      (_ & g0 & row & col & (Hr & _ & Hbal) & Hok & -> & _)]].
    + apply balanced_difference, Hbal.
    + apply balanced_difference, Hbal.
    + apply (placed_difference g0 row col (reachable_wf g0 Hr) Hbal Hok).
Qed.

Lemma run_last_line g fuel stdin :
  reachable g -> (Z.to_nat (size g) < fuel)%nat ->
  exists r final,
    returned (run_ fuel stdin) g = Ok r /\
    last (printed (run_ fuel stdin) g) = Some final /\
    let g' := self_after (run_ fuel stdin) g in
    reachable g' /\ size g' = size g /\
    ((r = RunEOFError /\
      exists stone, final = prompt_line (current_player g') stone)
     \/
     (r = RunReturned /\ final = goodbye_message)
     \/
     (r = RunReturned /\
      exists row col stone,
        PLAYER_STONES !! current_player g' = Some stone /\
        cell_at g' row col = Some stone /\
        ((returned (check_winner fuel row col) g' = Ok (win g') /\
          final = win_message (current_player g'))
         \/
         (returned (check_winner fuel row col) g'
          = Ok (mkMoveResult None true) /\
          final = draw_message)))).
Proof.
  intros Hreach Hfuel.
  destruct (run_loop_ends (fun g' => reachable g' /\ size g' = size g) fuel)
    with (stdin := stdin) (g := g)
    as (r & g' & out & final & Eloop & Hlast & Hcases).
  - intros g' [Hr Hs]. split; [apply reachable_wf; exact Hr | lia].
  - intros g' row col [Hr Hs] _. split.
    + exact (reachable_call _ CallSwitchPlayer
               (reachable_call _ (CallPlaceStone row col) Hr)).
    + change (size (after CallSwitchPlayer (after (CallPlaceStone row col) g'))
              = size g).
      rewrite !after_size; [exact Hs | apply reachable_wf; exact Hr |].
      apply after_wf, reachable_wf, Hr.
  - auto.
  - exists r, final. unfold returned, printed, self_after.
    rewrite run_unfold, Eloop. cbn [fst snd].
    split; [reflexivity|].
    split; [apply last_after, last_after; exact Hlast|].
    destruct Hcases as [(-> & [Hr Hs] & Hfinal) | [(-> & [Hr Hs] & Hfinal) |
      (-> & g0 & row & col & [Hr Hs] & Hok & -> & Hfinal)]].
    + split; [exact Hr|]. split; [exact Hs|]. left. auto.
    + split; [exact Hr|]. split; [exact Hs|]. right. left. auto.
    + pose proof (reachable_wf g0 Hr) as Hwf0.
      destruct (placed_stone g0 row col Hwf0 Hok)
        as (stone & Hstone & Hcell & Hp & _).
      split; [exact (reachable_call _ (CallPlaceStone row col) Hr)|].
      split.
      { change (size (after (CallPlaceStone row col) g0) = size g).
        rewrite after_size; [exact Hs | exact Hwf0]. }
      right. right. split; [reflexivity|].
      exists row, col, stone.
      split; [rewrite Hp; exact Hstone|]. split; [exact Hcell | exact Hfinal].
Qed.

(** X14. When the last line [run] prints congratulates a player, [run]
    has returned, that player is the player to move in the object it
    leaves, and five cells in a row of the board hold that player's
    stone. *)
Theorem run_announces_the_winner g fuel stdin p :
  reachable g -> (Z.to_nat (size g) < fuel)%nat ->
  last (printed (run_ fuel stdin) g) = Some (win_message p) ->
  let g' := self_after (run_ fuel stdin) g in
  returned (run_ fuel stdin) g = Ok RunReturned /\
  current_player g' = p /\
  exists stone row col,
    PLAYER_STONES !! p = Some stone /\ five_in_row g' stone row col.
Proof.
  intros Hreach Hfuel Hlast.
  destruct (run_last_line g fuel stdin Hreach Hfuel)
    as (r & final & Hret & Hlast' & Hr & Hs & Hcases).
  rewrite Hlast in Hlast'. injection Hlast' as <-. cbv zeta.
  destruct Hcases as [(_ & stone & Hfinal) | [(_ & Hfinal) |
    (-> & row & col & stone & Hstone & Hcell & [[Hwin Hfinal] | [_ Hfinal]])]].
  - exfalso. vm_compute in Hfinal. discriminate Hfinal.
  - exfalso. vm_compute in Hfinal. discriminate Hfinal.
  - apply win_message_inj in Hfinal as ->.
    split; [exact Hret|]. split; [reflexivity|].
    exists stone, row, col. split; [exact Hstone|].
    apply (win_gives_five _ fuel); try assumption.
    + apply reachable_wf, Hr.
    + rewrite Hs. exact Hfuel.
  - exfalso. vm_compute in Hfinal. discriminate Hfinal.
Qed.

(** X15. When the last line [run] prints announces a draw, [run] has
    returned and no cell of the board it leaves is [EMPTY]. *)
Theorem run_announces_a_draw g fuel stdin :
  reachable g -> (Z.to_nat (size g) < fuel)%nat ->
  last (printed (run_ fuel stdin) g) = Some draw_message ->
  returned (run_ fuel stdin) g = Ok RunReturned /\
  full (self_after (run_ fuel stdin) g).
Proof.
  intros Hreach Hfuel Hlast.
  destruct (run_last_line g fuel stdin Hreach Hfuel)
    as (r & final & Hret & Hlast' & Hr & Hs & Hcases).
  rewrite Hlast in Hlast'. injection Hlast' as <-.
  destruct Hcases as [(_ & stone & Hfinal) | [(_ & Hfinal) |
    (-> & row & col & stone & Hstone & Hcell & [[_ Hfinal] | [Hdraw _]])]].
  - exfalso. vm_compute in Hfinal. discriminate Hfinal.
  - exfalso. vm_compute in Hfinal. discriminate Hfinal.
  - exfalso. vm_compute in Hfinal. discriminate Hfinal.
  - split; [exact Hret|].
    apply (draw_gives_full _ fuel row col).
    + apply reachable_wf, Hr.
    + apply reachable_counter_agrees, Hr.
    + rewrite Hs. exact Hfuel.
    + exact Hdraw.
Qed.

End RunProperties.

Lemma run_is_safe_witness :
  reachable
    (self_after (run ascii_strip ascii_lower ascii_split ascii_int 4
                   ["2 2"; "x"; "2 2"; "9 9"; " 1 1"; "Q"; "3 3"])
       (__init__ 3)).
Proof.
  apply (run_is_safe ascii_strip ascii_lower ascii_split ascii_int
           (__init__ 3) 4).
  - apply reachable_new.
  - vm_compute. lia.
Defined.

Lemma run_skips_refused_lines_witness :
  self_after (run ascii_strip ascii_lower ascii_split ascii_int 16
                ["1 1"; "8 8"; "quit"]) corner_stone
  = self_after (run ascii_strip ascii_lower ascii_split ascii_int 16
                  ["8 8"; "quit"]) corner_stone.
Proof.
  apply (run_skips_refused_lines ascii_strip ascii_lower ascii_split ascii_int
           corner_stone 16 "1 1" ["8 8"; "quit"]).
  - wf_by_evaluation.
  - vm_compute. lia.
  - vm_compute. reflexivity.
  - right. exists 0, 0. split; vm_compute; reflexivity.
Defined.

Lemma run_reads_no_further_witness :
  run ascii_strip ascii_lower ascii_split ascii_int 4
    (["2 2"; " Exit "] ++ ["1 1"; "3 3"]) (__init__ 3)
  = run ascii_strip ascii_lower ascii_split ascii_int 4
      ["2 2"; " Exit "] (__init__ 3).
Proof.
  apply (run_reads_no_further ascii_strip ascii_lower ascii_split ascii_int).
  vm_compute. reflexivity.
Defined.

Lemma main_keeps_the_turns_witness :
  let g' := snd (fst (ascii_main 16 ["8 8"; "8 8"; "9 9"; "1 2"; "q"])) in
  0 <= stones "X" (board g') - stones "O" (board g') <= 1.
Proof.
  apply (main_keeps_the_turns ascii_strip ascii_lower ascii_split ascii_int 16).
  vm_compute. lia.
Defined.

Lemma run_announces_the_winner_witness :
  let stdin := ["8 1"; "1 1"; "8 2"; "1 2"; "8 3"; "1 3"; "8 4"; "1 4"; "8 5"] in
  let g' := self_after (run ascii_strip ascii_lower ascii_split ascii_int 16
                          stdin) (__init__ BOARD_SIZE) in
  returned (run ascii_strip ascii_lower ascii_split ascii_int 16 stdin)
    (__init__ BOARD_SIZE) = Ok RunReturned /\
  current_player g' = "black" /\
  exists stone row col,
    PLAYER_STONES !! "black" = Some stone /\ five_in_row g' stone row col.
Proof.
  apply (run_announces_the_winner ascii_strip ascii_lower ascii_split ascii_int
           (__init__ BOARD_SIZE) 16).
  - apply reachable_new.
  - vm_compute. lia.
  - vm_compute. reflexivity.
Defined.

Lemma run_announces_a_draw_witness :
  returned (run ascii_strip ascii_lower ascii_split ascii_int 2 ["1 1"; "1 1"])
    (__init__ 1) = Ok RunReturned /\
  full (self_after (run ascii_strip ascii_lower ascii_split ascii_int 2
                      ["1 1"; "1 1"]) (__init__ 1)).
Proof.
  apply (run_announces_a_draw ascii_strip ascii_lower ascii_split ascii_int
           (__init__ 1) 2).
  - apply reachable_new.
  - vm_compute. lia.
  - vm_compute. reflexivity.
Defined.

(** ** The four axes and the size of the board *)

Lemma axis_total_opposite g stone row col dr dc n :
  axis_total g stone row col (dr, dc) n ->
  axis_total g stone row col (- dr, - dc) n.
Proof.
  intros (kp & kn & Hp & Hn & ->). exists kn, kp. cbn [fst snd] in *.
  rewrite !Z.opp_involutive. split; [exact Hn|]. split; [exact Hp | lia].
Qed.

(** X16. The count of an axis is the same taken in the opposite
    direction: the four axes of [check_winner] cover the eight
    directions from a cell. *)
Theorem count_opposite g fuel stone row col dr dc :
  wf g -> (Z.to_nat (size g) < fuel)%nat -> (dr, dc) ∈ directions ->
  count fuel stone row col (- dr) (- dc) g = count fuel stone row col dr dc g.
Proof.
  intros Hwf Hfuel Hd.
  pose proof (directions_unit_step _ Hd) as Hstep. cbn [fst snd] in Hstep.
  assert (Hback : unit_step (- dr) (- dc)).
  { destruct Hstep as (Ha & Hb & Hab). unfold unit_step. lia. }
  destruct (count_total g stone row col dr dc fuel Hwf Hstep Hfuel)
    as (n & Htot & ->).
  destruct (count_total g stone row col (- dr) (- dc) fuel Hwf Hback Hfuel)
    as (m & Htot' & ->).
  apply axis_total_opposite in Htot.
  rewrite (axis_total_unique _ _ _ _ _ _ _ Htot' Htot). reflexivity.
Qed.

Lemma count_opposite_witness :
  count 16 "X" 4 0 (-1) 0 crossing_lines = count 16 "X" 4 0 1 0 crossing_lines.
Proof.
  apply (count_opposite crossing_lines 16 "X" 4 0 1 0).
  - wf_by_evaluation.
  - vm_compute. lia.
  - in_directions.
Defined.

Lemma five_in_row_size g stone row col :
  five_in_row g stone row col -> 5 <= size g.
Proof.
  intros (d & s & Hd & Hs & Hwindow).
  pose proof (directions_unit_step _ Hd) as (Ha & Hb & Hab).
  pose proof (Hwindow s ltac:(lia)) as Hlow.
  pose proof (Hwindow (s + 4) ltac:(lia)) as Hhigh.
  apply cell_at_on_board, on_board_spec in Hlow, Hhigh.
  assert (fst d = -1 \/ fst d = 0 \/ fst d = 1) as [Hd1 | [Hd1 | Hd1]] by lia;
    assert (snd d = -1 \/ snd d = 0 \/ snd d = 1) as [Hd2 | [Hd2 | Hd2]] by lia;
    rewrite Hd1, Hd2 in *; lia.
Qed.

(** X17. On a board of side four or less nobody wins: after a stone of
    the player to move has been placed at [(row, col)], [check_winner]
    names no winner. *)
Theorem small_board_has_no_winner g fuel row col stone :
  wf g -> (Z.to_nat (size g) < fuel)%nat ->
  PLAYER_STONES !! current_player g = Some stone ->
  cell_at g row col = Some stone ->
  size g < 5 ->
  exists mr, check_winner fuel row col g = (Ok mr, g, []) /\ winner mr = None.
Proof.
  intros Hwf Hfuel Hstone Hplaced Hsmall.
  destruct (check_winner_total g stone row col fuel Hwf Hfuel Hstone)
    as [[(d & n & Hd & Htot & Hn) _] | [_ Heq]].
  - exfalso.
    destruct (proj1 (total_five_iff g stone row col d n Hplaced Htot) Hn)
      as (s & Hs & Hwindow).
    assert (Hfive : five_in_row g stone row col) by (exists d, s; auto).
    apply five_in_row_size in Hfive. lia.
  - exists (no_line_result g). split; [exact Heq|].
    unfold no_line_result, MoveResult_default. case_match; reflexivity.
Qed.

Lemma small_board_has_no_winner_witness :
  let g := self_after (place_stone 1 1) (__init__ 3) in
  exists mr, check_winner 4 1 1 g = (Ok mr, g, []) /\ winner mr = None.
Proof.
  apply (small_board_has_no_winner
           (self_after (place_stone 1 1) (__init__ 3)) 4 1 1 "X").
  - wf_by_evaluation.
  - vm_compute. lia.
  - vm_compute. reflexivity.
  - vm_compute. reflexivity.
  - vm_compute. reflexivity.
Defined.
